(** * git-go: the object database of [cmd/mygit/main.go]

    A shallow embedding of the object model implemented by [main.go]:
    [hash_file], [hash_dir], [commit_tree] and the [cat-file],
    [hash-object] and [ls-tree] commands of [main].

    Conventions.
    - A Go [string] or [[]byte] is a [list byte].
    - The part of the file system under [.git] is an explicit state
      ([fs]) threaded through every operation; an operation returns its
      result (or its [error]) together with the state it leaves behind.
    - The work tree walked by [hash_dir] is a value of type [node]: the
      walk skips every entry called [.git], and all writes go below
      [.git], so the walk never observes a write.
    - [crypto/sha1] is embedded as the SHA-1 function itself;
      [compress/zlib] is a pair of section variables related by the
      round-trip law of the library; [time.Now] is an argument. *)

From Stdlib Require Import ZArith List Lia Bool Sorting.Sorted Permutation.
From Stdlib Require Import Strings.String Strings.Byte.
From stdpp Require Import base decidable countable gmap list sorting.

Open Scope Z_scope.

(** ** Bytes *)

Abbreviation bytes := (list byte).

#[global] Instance byte_eq_decision : EqDecision byte := Byte.byte_eq_dec.

#[global] Program Instance byte_countable : Countable byte :=
  inj_countable Byte.to_N Byte.of_N _.
Next Obligation. exact Byte.of_to_N. Qed.

(** A Go string literal. *)
Definition lit (s : string) : bytes := list_byte_of_string s.

Definition NUL : byte := Byte.x00.
Definition SP : byte := Byte.x20.
Definition LF : byte := Byte.x0a.

Definition byte_val (b : byte) : Z := Z.of_N (Byte.to_N b).

Definition byte_of_Z (z : Z) : byte :=
  match Byte.of_N (Z.to_N (z mod 256)) with
  | Some b => b
  | None => Byte.x00
  end.

(** [strings.IndexByte] / [bytes.IndexByte]: index of the first
    occurrence of [c], or [-1]. *)
Fixpoint IndexByte (s : bytes) (c : byte) : Z :=
  match s with
  | [] => -1
  | x :: s' =>
      if decide (x = c) then 0
      else let i := IndexByte s' c in if i <? 0 then -1 else i + 1
  end.

(** Go's [<] on strings: lexicographic on the byte values. *)
Fixpoint bytes_ltb (s t : bytes) : bool :=
  match s, t with
  | _, [] => false
  | [], _ :: _ => true
  | x :: s', y :: t' =>
      if byte_val x <? byte_val y then true
      else if byte_val y <? byte_val x then false
      else bytes_ltb s' t'
  end.

(** ** [fmt] verbs *)

Definition digit_char (d : Z) : byte :=
  if d <? 10 then byte_of_Z (48 + d) else byte_of_Z (87 + d).

(** The digits of [n >= 0] in base [base], most significant first. *)
Fixpoint digits_fuel (fuel : nat) (base n : Z) (acc : bytes) : bytes :=
  match fuel with
  | O => acc
  | S fuel' =>
      let acc' := digit_char (n mod base) :: acc in
      if n / base =? 0 then acc' else digits_fuel fuel' base (n / base) acc'
  end.

Definition digits (base n : Z) : bytes :=
  digits_fuel (S (Z.to_nat (Z.log2 n))) base n [].

Definition fmt_int (base n : Z) : bytes :=
  if n <? 0 then lit "-" ++ digits base (- n) else digits base n.

(** [%d] and [%o] on an [int]. *)
Definition fmt_d (n : Z) : bytes := fmt_int 10 n.
Definition fmt_o (n : Z) : bytes := fmt_int 8 n.

(** [%x] on a byte array: two lower-case hexadecimal digits per byte. *)
Definition fmt_x (s : bytes) : bytes :=
  flat_map (fun b => [digit_char (byte_val b / 16); digit_char (byte_val b mod 16)]) s.

Definition len (s : bytes) : Z := Z.of_nat (length s).

(** ** [crypto/sha1] *)

Module SHA1.

Definition w32 (z : Z) : Z := z mod 2 ^ 32.

Definition rotl (n x : Z) : Z :=
  w32 (Z.lor (Z.shiftl x n) (Z.shiftr x (32 - n))).

Definition be_bytes (n : nat) (z : Z) : bytes :=
  map (fun i => byte_of_Z (Z.shiftr z (8 * Z.of_nat i))) (rev (seq 0 n)).

Definition be_word (bs : bytes) : Z :=
  fold_left (fun acc b => acc * 256 + byte_val b) bs 0.

(** Message padding: a one bit, zeros up to 56 modulo 64, then the
    length in bits on eight bytes. *)
Definition pad (m : bytes) : bytes :=
  let l := len m in
  let k := (55 - l) mod 64 in
  m ++ Byte.x80 :: repeat Byte.x00 (Z.to_nat k) ++ be_bytes 8 (8 * l).

Fixpoint chunks {A} (fuel : nat) (n : nat) (l : list A) : list (list A) :=
  match fuel with
  | O => []
  | S fuel' =>
      match l with
      | [] => []
      | _ => take n l :: chunks fuel' n (drop n l)
      end
  end.

Definition words_of_block (blk : bytes) : list Z :=
  map be_word (chunks 16 4 blk).

(** The message schedule, most recent word first. *)
Fixpoint schedule (fuel : nat) (w : list Z) : list Z :=
  match fuel with
  | O => w
  | S fuel' =>
      let x := Z.lxor (Z.lxor (nth 2 w 0) (nth 7 w 0))
                      (Z.lxor (nth 13 w 0) (nth 15 w 0)) in
      schedule fuel' (rotl 1 x :: w)
  end.

Definition f (t : nat) (b c d : Z) : Z :=
  if (t <? 20)%nat then Z.lor (Z.land b c) (Z.land (w32 (Z.lnot b)) d)
  else if (t <? 40)%nat then Z.lxor (Z.lxor b c) d
  else if (t <? 60)%nat then Z.lor (Z.lor (Z.land b c) (Z.land b d)) (Z.land c d)
  else Z.lxor (Z.lxor b c) d.

Definition K (t : nat) : Z :=
  if (t <? 20)%nat then 0x5A827999
  else if (t <? 40)%nat then 0x6ED9EBA1
  else if (t <? 60)%nat then 0x8F1BBCDC
  else 0xCA62C1D6.

Definition state : Type := Z * Z * Z * Z * Z.

Definition round (st : state) (tw : nat * Z) : state :=
  let '(a, b, c, d, e) := st in
  let '(t, w) := tw in
  (w32 (rotl 5 a + f t b c d + e + w + K t), a, rotl 30 b, c, d).

Definition block (h : state) (blk : bytes) : state :=
  let w := rev (schedule 64 (rev (words_of_block blk))) in
  let '(a, b, c, d, e) := fold_left round (combine (seq 0 80) w) h in
  let '(h0, h1, h2, h3, h4) := h in
  (w32 (h0 + a), w32 (h1 + b), w32 (h2 + c), w32 (h3 + d), w32 (h4 + e)).

Definition init : state :=
  (0x67452301, 0xEFCDAB89, 0x98BADCFE, 0x10325476, 0xC3D2E1F0).

(** [sha1.Sum]. *)
Definition Sum (m : bytes) : bytes :=
  let p := pad m in
  let '(h0, h1, h2, h3, h4) := fold_left block (chunks (length p) 64 p) init in
  be_bytes 4 h0 ++ be_bytes 4 h1 ++ be_bytes 4 h2 ++ be_bytes 4 h3 ++ be_bytes 4 h4.

End SHA1.

(** ** The file system below [.git] *)

(** A path is the list of its components, as [path.Join] puts them
    together.  The components this program joins are [.git], [objects]
    and the two parts of a hexadecimal digest, on which [path.Clean] is
    the identity. *)
Abbreviation path := (list bytes).

(** [dirs] and [files] are the directories and regular files that exist;
    [denied] holds the paths at which the operating system refuses to
    create or write (permissions, quota). *)
Record fs : Type := Fs {
  dirs : gset path;
  files : gmap path bytes;
  denied : gset path
}.

Inductive error : Type :=
| ReadError
| MkdirError (p : path)
| WriteError (p : path).

Inductive result (A : Type) : Type :=
| Ok (a : A)
| Err (e : error).
Arguments Ok {A} a.
Arguments Err {A} e.

(** A computation on the file system: its result and the state it
    leaves, also when it fails. *)
Definition M (A : Type) : Type := fs -> result A * fs.

Definition ret {A} (a : A) : M A := fun s => (Ok a, s).
Definition fail {A} (e : error) : M A := fun s => (Err e, s).
Definition bind {A B} (m : M A) (k : A -> M B) : M B :=
  fun s =>
    match m s with
    | (Ok a, s') => k a s'
    | (Err e, s') => (Err e, s')
    end.

Notation "'let*' x ':=' m 'in' k" := (bind m (fun x => k))
  (at level 10, x name, m at level 100, k at level 200).
Notation "'run' m 'in' k" := (bind m (fun _ => k))
  (at level 10, m at level 100, k at level 200).

Definition is_dir (s : fs) (p : path) : bool := bool_decide (p ∈ dirs s).
Definition is_file (s : fs) (p : path) : bool := bool_decide (is_Some (files s !! p)).

(** The prefixes of a path, shortest first, the path itself last. *)
Definition prefixes (p : path) : list path :=
  map (fun n => take n p) (seq 1 (length p)).

Definition parent (p : path) : path := removelast p.

(** [os.IsNotExist] of the error of [os.Stat p]: nothing is at [p], and
    no component on the way to it is a regular file (that is a
    not-a-directory error instead). *)
Definition stat_not_exist (s : fs) (p : path) : bool :=
  negb (is_dir s p) && negb (is_file s p)
  && forallb (fun q => negb (is_file s q)) (prefixes (parent p)).

Fixpoint mkdir_chain (ps : list path) : M unit :=
  match ps with
  | [] => ret tt
  | p :: ps' =>
      fun s =>
        if is_dir s p then mkdir_chain ps' s
        else if is_file s p || bool_decide (p ∈ denied s)
             then (Err (MkdirError p), s)
             else mkdir_chain ps'
                    {| dirs := {[p]} ∪ dirs s; files := files s; denied := denied s |}
  end.

(** [os.MkdirAll]: creates the missing directories on the way to [p],
    and [p]; fails at the first component that is a file or that may
    not be created, keeping what it has created. *)
Definition MkdirAll (p : path) : M unit := mkdir_chain (prefixes p).

(** [os.WriteFile]: creates or truncates [p] and writes [data]. *)
Definition WriteFile (p : path) (data : bytes) : M unit :=
  fun s =>
    if is_dir s p || negb (forallb (is_dir s) (prefixes (parent p)))
       || bool_decide (p ∈ denied s)
    then (Err (WriteError p), s)
    else (Ok tt, {| dirs := dirs s; files := <[p := data]> (files s); denied := denied s |}).

(** [os.Open] and the reads that follow: the bytes of the regular file
    at [p]. *)
Definition Open (s : fs) (p : path) : option bytes := files s !! p.

(** ** The work tree *)

Inductive kind : Type := Regular | Symlink | Other.

(** What [hash_dir] and [hash_file] can see of a file-system entry:
    for a directory the listing of [os.ReadDir] (or its failure), for
    anything else the result of [os.ReadFile], which follows links:
    [None] is a read error (a dangling link, a link to a directory, no
    permission). *)
#[warnings="-register-all"] Inductive node : Type :=
| Dir (listing : list (bytes * node))
| DirErr
| NonDir (k : kind) (read : option bytes).

(** [fs.DirEntry.IsDir]. *)
Definition IsDir (n : node) : bool :=
  match n with
  | NonDir _ _ => false
  | _ => true
  end.

Definition ReadFile (n : node) : option bytes :=
  match n with
  | NonDir _ r => r
  | _ => None
  end.

(** ** [compress/zlib] *)

(** What [zlib.NewReader] followed by [ioutil.ReadAll] gives: a header
    error, or the bytes read and whether the read ended in an error. *)
Inductive zlib_result : Type :=
| ZHeaderError
| ZReadAll (contents : bytes) (err : bool).

(** What a command of [main] does: it returns normally having produced
    a value, exits with status 1 after a message on the standard error,
    or stops with a Go run-time panic. *)
Inductive outcome (A : Type) : Type :=
| Done (a : A)
| Exit1 (msg : bytes)
| Panic.
Arguments Done {A} a.
Arguments Exit1 {A} msg.
Arguments Panic {A}.

(** Octal [0o100644] and [0o040000]. *)
Definition mode_file : Z := 33188.
Definition mode_dir : Z := 16384.

(** ** The object store *)

(** [path.Join(".git", "objects", sha[:2], sha[2:])] for the
    hexadecimal digest [sha]. *)
Definition obj_path (sha : bytes) : path :=
  [lit ".git"; lit "objects"; take 2 sha; drop 2 sha].

Definition bucket_path (sha : bytes) : path :=
  [lit ".git"; lit "objects"; take 2 sha].

(** The write that ends [hash_file] (l.54-62), [hash_dir] (l.124-132),
    [commit_tree] (l.171-179) and [hash-object] (l.262-271): when
    nothing is at the object's path the bucket directory is created;
    the file is then written in every case. *)
Definition put (sha : bytes) (data : bytes) : M unit :=
  run (fun s => if stat_not_exist s (obj_path sha)
                then MkdirAll (bucket_path sha) s
                else (Ok tt, s)) in
  WriteFile (obj_path sha) data.

(** ** Serialized objects *)

Definition blob_object (fileContents : bytes) : bytes :=
  lit "blob " ++ fmt_d (len fileContents) ++ [NUL] ++ fileContents.

(** [fmt.Sprintf("%o %s\x00%s", mode, name, sha)]; [%s] on the
    [[20]byte] digest writes its raw bytes. *)
Definition format_entry (mode : Z) (name sha : bytes) : bytes :=
  fmt_o mode ++ [SP] ++ name ++ [NUL] ++ sha.

(** What the comparison of [sort.Slice] looks at: the entry after its
    first space. *)
Definition sort_key (entry : bytes) : bytes :=
  drop (Z.to_nat (IndexByte entry SP + 1)) entry.

Definition less (a b : bytes) : bool := bytes_ltb (sort_key a) (sort_key b).

(** [sort.Slice(entries, less)]: the entries in an order in which no
    entry is [less] than one before it.  [sort.Slice] is not stable;
    entries that compare equal, which have the same name and digest,
    are left here in the order of a merge sort. *)
Definition entry_le (a b : bytes) : Prop := less b a = false.

#[global] Instance entry_le_dec a b : Decision (entry_le a b).
Proof. unfold entry_le. apply _. Defined.

Definition sort_entries (entries : list bytes) : list bytes :=
  merge_sort entry_le entries.

Definition tree_object (entries : list bytes) : bytes :=
  let contents := concat (sort_entries entries) in
  lit "tree " ++ fmt_d (len contents) ++ [NUL] ++ contents.

(** ** [time] *)

Definition pad2 (x : Z) : bytes :=
  if x <? 10 then lit "0" ++ fmt_d x else fmt_d x.

(** [time.Time.Format("-0700")] for a zone [offset] seconds east of
    UTC. *)
Definition fmt_zone (offset : Z) : bytes :=
  let zone := Z.quot offset 60 in
  if zone <? 0
  then lit "-" ++ pad2 (- zone / 60) ++ pad2 (- zone mod 60)
  else lit "+" ++ pad2 (zone / 60) ++ pad2 (zone mod 60).

(** The strings [author] and [committer] of [commit_tree] (l.146-147). *)
Definition author (timestamp : Z) (timezone_offset : bytes) : bytes :=
  lit "author Bocchi! The Rock <bocchi@therock.com> "
  ++ fmt_d timestamp ++ [SP] ++ timezone_offset.

Definition committer (timestamp : Z) (timezone_offset : bytes) : bytes :=
  lit "committer Bocchi! The Rock <bocchi@therock.com> "
  ++ fmt_d timestamp ++ [SP] ++ timezone_offset.

(** The buffer [commit] of [commit_tree] (l.137-153); [timestamp] is
    [time.Now().Unix()] and [offset] the zone offset of the second
    [time.Now()]. *)
Definition commit_payload (timestamp offset : Z)
    (sha_tree sha_parent message : bytes) : bytes :=
  let timezone_offset := fmt_zone offset in
  (lit "tree " ++ sha_tree ++ [LF])
  ++ (if decide (sha_parent = []) then []
      else lit "parent " ++ sha_parent ++ [LF])
  ++ (lit "author " ++ author timestamp timezone_offset ++ [LF])
  ++ (lit "committer " ++ committer timestamp timezone_offset ++ [LF])
  ++ (if decide (message = []) then []
      else [LF] ++ message ++ [LF]).

Definition commit_object (commit : bytes) : bytes :=
  lit "commit " ++ fmt_d (len commit) ++ [NUL] ++ commit.

(** ** The loop of [ls-tree] (l.304-319) *)

(** One pass of the loop body per unit of [fuel]; [None] when the fuel
    runs out.  A slice expression whose bounds are out of range is a
    run-time panic: [contents[:-1]] when the byte is not found, and
    [contents[20:]] on fewer than twenty bytes ([contents[:20]] alone
    may pass when the capacity allows it; the next line then panics). *)
Fixpoint ls_tree_loop (fuel : nat) (contents : bytes) (paths : list bytes)
    : option (outcome (list bytes)) :=
  match fuel with
  | O => None
  | S fuel' =>
      if decide (contents = []) then Some (Done paths)
      else
        let space_index := IndexByte contents SP in
        if space_index <? 0 then Some Panic
        else
          let mode := take (Z.to_nat space_index) contents in
          let contents := drop (length mode + 1) contents in
          let null_index := IndexByte contents NUL in
          if null_index <? 0 then Some Panic
          else
            let path := take (Z.to_nat null_index) contents in
            let contents := drop (length path + 1) contents in
            if len contents <? 20 then Some Panic
            else
              let path_sha := take 20 contents in
              let contents := drop (length path_sha) contents in
              ls_tree_loop fuel' contents (paths ++ [path])
  end.

(** L.301-319: drop the header, then run the loop. *)
Definition ls_tree_parse (contents : bytes) : option (outcome (list bytes)) :=
  let header_index := IndexByte contents NUL in
  let contents := drop (Z.to_nat (header_index + 1)) contents in
  ls_tree_loop (S (length contents)) contents [].

Section Git.

(** [zlib.NewWriter]/[Write]/[Close] on one buffer, and
    [zlib.NewReader]/[ioutil.ReadAll] on the bytes of a file. *)
Variable compress : bytes -> bytes.
Variable zlib_read : bytes -> zlib_result.

(** ** [hash_file] *)

Definition hash_file (filePath : node) : M bytes :=
  match ReadFile filePath with
  | None => fail ReadError
  | Some fileContents =>
      let storeContents := blob_object fileContents in
      let rawSha := SHA1.Sum storeContents in
      let blobSha := fmt_x rawSha in
      run put blobSha (compress storeContents) in
      ret rawSha
  end.

(** ** [hash_dir] *)

(** The second half of [hash_dir] (l.101-133): sort the entries, build
    the tree object, write it. *)
Definition encode_tree (entries : list bytes) : M bytes :=
  let b := tree_object entries in
  let rawSha := SHA1.Sum b in
  let treeSha := fmt_x rawSha in
  run put treeSha (compress b) in
  ret rawSha.

(** The loop over the listing (l.73-100); [hash_dir] is the function
    called on a subdirectory. *)
Fixpoint hash_entries (hash_dir : node -> M bytes)
    (files : list (bytes * node)) (entries : list bytes) : M (list bytes) :=
  match files with
  | [] => ret entries
  | (name, file) :: files' =>
      if decide (name = lit ".git") then hash_entries hash_dir files' entries
      else if IsDir file then
        let* treeSha := hash_dir file in
        hash_entries hash_dir files' (entries ++ [format_entry mode_dir name treeSha])
      else
        let* fileSha := hash_file file in
        hash_entries hash_dir files' (entries ++ [format_entry mode_file name fileSha])
  end.

Fixpoint hash_dir (rootPath : node) : M bytes :=
  match rootPath with
  | Dir files =>
      let* entries := hash_entries hash_dir files [] in
      encode_tree entries
  | _ => fail ReadError
  end.

(** ** [commit_tree] *)

Definition commit_tree (timestamp offset : Z)
    (sha_tree sha_parent message : bytes) : M bytes :=
  let commit := commit_payload timestamp offset sha_tree sha_parent message in
  let raw_sha := SHA1.Sum commit in
  let commit_sha := fmt_x raw_sha in
  let b := commit_object commit in
  run put commit_sha (compress b) in
  ret raw_sha.

(** ** The commands of [main] *)

(** [init]: errors are reported and the command goes on. *)
Definition init (s : fs) : fs :=
  let s := snd (MkdirAll [lit ".git"] s) in
  let s := snd (MkdirAll [lit ".git"; lit "objects"] s) in
  let s := snd (MkdirAll [lit ".git"; lit "refs"] s) in
  snd (WriteFile [lit ".git"; lit "HEAD"] (lit "ref: refs/heads/master" ++ [LF]) s).

(** [hash-object]: a read error is reported and the command goes on
    with no data.  The value produced is the standard output. *)
Definition hash_object (file : node) (s : fs) : outcome bytes * fs :=
  let data := match ReadFile file with Some dat => dat | None => [] end in
  let content := blob_object data in
  let sha_data := fmt_x (SHA1.Sum content) in
  match put sha_data (compress content) s with
  | (Ok _, s') => (Done (sha_data ++ [LF]), s')
  | (Err (MkdirError _), s') => (Exit1 (lit "Error creating folder"), s')
  | (Err _, s') => (Exit1 (lit "Error creating file"), s')
  end.

(** [cat-file] up to [data] (l.213-235).  A read error of [ReadAll] is
    reported and the command goes on with what was read. *)
Definition cat_file_data (blob_sha : bytes) (s : fs) : outcome bytes :=
  if len blob_sha <? 2 then Panic
  else
    let blobPath := obj_path blob_sha in
    match Open s blobPath with
    | None =>
        if is_dir s blobPath then Exit1 (lit "Error parsing file")
        else Exit1 (lit "File not found")
    | Some reader =>
        match zlib_read reader with
        | ZHeaderError => Exit1 (lit "Error parsing file")
        | ZReadAll contents _ =>
            let index := IndexByte contents NUL + 1 in
            Done (drop (Z.to_nat index) contents)
        end
    end.

(** [cat-file]: the standard output, [fmt.Printf("%s\n", data)]. *)
Definition cat_file (blob_sha : bytes) (s : fs) : outcome bytes :=
  match cat_file_data blob_sha s with
  | Done data => Done (data ++ [LF])
  | Exit1 msg => Exit1 msg
  | Panic => Panic
  end.

(** [ls-tree]: the names collected in [paths]. *)
Definition ls_tree (tree_sha : bytes) (s : fs) : option (outcome (list bytes)) :=
  if len tree_sha <? 2 then Some Panic
  else
    let treePath := obj_path tree_sha in
    match Open s treePath with
    | None =>
        if is_dir s treePath then Some (Exit1 (lit "Error parsing tree"))
        else Some (Exit1 (lit "Error finding tree"))
    | Some reader =>
        match zlib_read reader with
        | ZHeaderError => Some (Exit1 (lit "Error parsing tree"))
        | ZReadAll _ true => Some (Exit1 (lit "Error reading file"))
        | ZReadAll contents false => ls_tree_parse contents
        end
    end.

End Git.

(** ** Tree entries *)

(** The fields [hash_dir] formats into one entry (l.99). *)
Record entry : Type := Entry {
  mode : Z;
  name : bytes;
  child : bytes
}.

Definition format (e : entry) : bytes :=
  format_entry (mode e) (name e) (child e).

(** Non-decreasing byte-wise order of the names. *)
Definition name_le (a b : entry) : Prop := bytes_ltb (name b) (name a) = false.

(** ** Concrete stores *)

Definition fs_empty : fs := Fs ∅ ∅ ∅.

(** The store after [mygit init] in an empty directory. *)
Definition fs_init : fs := init fs_empty.

(** The digest of the blob of content [x], in hexadecimal. *)
Definition digest_x : bytes := fmt_x (SHA1.Sum (blob_object (lit "x"))).

(** A store in which the entry of [digest_x] holds the bytes [old]. *)
Definition store_old : fs := snd (put digest_x (lit "old") fs_init).

(** ** Well-formed tree payloads *)

(** The payload format in the words of the specification: a sequence
    of entries, each a mode up to the first space, a name up to the
    next NUL byte, then exactly twenty digest bytes.  [tree_payload p
    names]: [p] is such a sequence and [names] are its names in order. *)
Inductive tree_payload : bytes -> list bytes -> Prop :=
| tree_payload_nil : tree_payload [] []
| tree_payload_entry (mode name sha rest : bytes) (names : list bytes) :
    SP ∉ mode -> NUL ∉ name -> length sha = 20%nat ->
    tree_payload rest names ->
    tree_payload (mode ++ SP :: name ++ NUL :: sha ++ rest) (name :: names).

(** Three payloads that end inside an entry: in the mode, in the name,
    in the digest. *)
Definition truncated_in_mode : bytes := lit "1006".
Definition truncated_in_name : bytes := lit "100644 a.tx".
Definition truncated_in_digest : bytes :=
  lit "100644 a.txt" ++ [NUL] ++ take 19 (SHA1.Sum (blob_object (lit "x"))).

(** ** Commits: concrete input and blank lines *)

(** The digest of the empty tree, in hexadecimal. *)
Definition empty_tree_sha : bytes := fmt_x (SHA1.Sum (lit "tree 0" ++ [NUL])).

(** The payload of a first commit of the empty tree with message
    [init], at the epoch, in UTC. *)
Definition init_payload : bytes :=
  commit_payload 0 0 empty_tree_sha [] (lit "init").

(** A text has a blank line when it starts with a line end or has two
    line ends in a row. *)
Definition has_blank_line (p : bytes) : Prop :=
  (exists r, p = LF :: r) \/ (exists a b, p = a ++ LF :: LF :: b).

(** Two entries, the directory first. *)
Definition two_entries : list entry :=
  [ Entry mode_dir (lit "b") (SHA1.Sum (lit "tree 0" ++ [NUL]));
    Entry mode_file (lit "a.txt") (SHA1.Sum (blob_object (lit "x"))) ].

(** ** A concrete [zlib] for the examples *)

(** The stored bytes are the bytes given; reading gives them back.
    Used only to run the functions on concrete inputs: nothing proved
    below for every [compress] depends on it. *)
Definition stored (b : bytes) : bytes := b.
Definition stored_read (z : bytes) : zlib_result := ZReadAll z false.

(** A content with NUL bytes and line ends in it. *)
Definition binary_content : bytes :=
  [NUL] ++ lit "hello" ++ [LF; NUL] ++ lit "world" ++ [NUL; LF].

(** ** A work tree and a list of entries for the examples *)

(** A directory with the file [a.txt] of content [x] and the empty
    directory [b]. *)
Definition work_tree : node :=
  Dir [ (lit "a.txt", NonDir Regular (Some (lit "x"))); (lit "b", Dir []) ].

Definition blob_x : bytes := SHA1.Sum (blob_object (lit "x")).
Definition empty_tree : bytes := SHA1.Sum (tree_object []).

(** The tree object expected for [work_tree]: [a.txt] as a regular
    file, then [b] as a directory. *)
Definition work_tree_payload : bytes :=
  format_entry mode_file (lit "a.txt") blob_x
  ++ format_entry mode_dir (lit "b") empty_tree.

Definition work_tree_object : bytes :=
  lit "tree " ++ fmt_d (len work_tree_payload) ++ [NUL] ++ work_tree_payload.


(** ** Predicates used in the statements *)

(** Neither a separator of the object format nor a line end. *)
Definition plain (b : byte) : Prop := b <> NUL /\ b <> SP /\ b <> LF.

(** A sufficient condition for [put] to succeed: nothing on the way to
    the bucket is a regular file or refused, the object's path is not a
    directory and not refused, and a file already there sits in an
    existing bucket. *)
Definition can_put (s : fs) (sha : bytes) : bool :=
  forallb (fun p => negb (is_file s p) && negb (bool_decide (p ∈ denied s)))
          (prefixes (bucket_path sha))
  && negb (is_dir s (obj_path sha))
  && negb (bool_decide (obj_path sha ∈ denied s))
  && (negb (is_file s (obj_path sha)) || forallb (is_dir s) (prefixes (bucket_path sha))).

(** A directory whose entry [link] is a symbolic link to a file of
    content [x], between a directory and a regular file. *)
Definition listing_before : list (bytes * node) := [ (lit "b", Dir []) ].
Definition listing_after : list (bytes * node) :=
  [ (lit "z.txt", NonDir Regular (Some (lit "x"))) ].

(** ** [main] *)

(** What [main] takes from outside the store: the clock read by
    [commit_tree], the working directory ([os.Getwd], as the components
    of an absolute path, the root being the empty list), which of the
    directories above it hold an entry [.git], what [hash_dir] sees at
    a directory and what [os.ReadFile] sees at a file name. *)
Record world : Type := World {
  now : Z;
  zone : Z;
  cwd : path;
  has_git : path -> bool;
  tree_at : path -> node;
  file_at : bytes -> node
}.

(** [os.Args[i]]; used where the length of [os.Args] has been tested. *)
Definition arg (args : list bytes) (i : nat) : bytes := nth i args [].

Definition usage_commit_tree : bytes :=
  lit "usage: mygit commit-tree <tree_sha> -p <commit_sha> -m <message>".

(** The arguments of [commit-tree] (l.351-377): the tree, the parent
    and the message handed to [commit_tree]. *)
Definition commit_tree_args (args : list bytes) : outcome (bytes * bytes * bytes) :=
  if (length args <? 3)%nat then Exit1 usage_commit_tree
  else
    let tree_sha := arg args 2 in
    if (length args =? 5)%nat then
      if decide (arg args 3 = lit "-p") then Done (tree_sha, arg args 4, [])
      else if decide (arg args 3 = lit "-m") then Done (tree_sha, [], arg args 4)
      else Exit1 usage_commit_tree
    else if (length args =? 7)%nat then
      if decide (arg args 3 = lit "-p") then Done (tree_sha, arg args 4, arg args 6)
      else Exit1 usage_commit_tree
    else Done (tree_sha, [], []).

(** [path.Dir] of an absolute path: one component less; the root is its
    own parent. *)
Definition path_Dir (dir : path) : path := removelast dir.

(** [os.Stat(path.Join(gitDir, ".git"))] succeeds: in the working
    directory this is the [.git] of the store, elsewhere the world
    tells. *)
Definition stat_git (w : world) (s : fs) (gitDir : path) : bool :=
  if decide (gitDir = cwd w) then is_dir s [lit ".git"] || is_file s [lit ".git"]
  else has_git w gitDir.

(** The loop of [write-tree] (l.336-341), one pass per unit of [fuel];
    [None] when the fuel runs out with the loop still going up. *)
Fixpoint find_git_dir (fuel : nat) (w : world) (s : fs) (gitDir : path) : option path :=
  match fuel with
  | O => None
  | S fuel' =>
      if stat_git w s gitDir then Some gitDir
      else find_git_dir fuel' w s (path_Dir gitDir)
  end.

Section Main.

Variable compress : bytes -> bytes.
Variable zlib_read : bytes -> zlib_result.

(** [write-tree] (l.325-348). *)
Definition write_tree (fuel : nat) (w : world) (s : fs) : option (outcome bytes * fs) :=
  match find_git_dir fuel w s (cwd w) with
  | None => None
  | Some gitDir =>
      match hash_dir compress (tree_at w gitDir) s with
      | (Ok treeSha, s') => Some (Done (fmt_x treeSha ++ [LF]), s')
      | (Err _, s') => Some (Exit1 (lit "Error hashing tree"), s')
      end
  end.

(** [commit-tree] (l.350-384). *)
Definition commit_tree_cmd (w : world) (args : list bytes) (s : fs) : outcome bytes * fs :=
  match commit_tree_args args with
  | Done (tree_sha, parent_sha, message) =>
      match commit_tree compress (now w) (zone w) tree_sha parent_sha message s with
      | (Ok commit_sha, s') => (Done (fmt_x commit_sha ++ [LF]), s')
      | (Err _, s') => (Exit1 (lit "Error committing tree"), s')
      end
  | Exit1 msg => (Exit1 msg, s)
  | Panic => (Panic, s)
  end.

(** [fmt.Println] of each name. *)
Definition print_lines (paths : list bytes) : bytes :=
  concat (map (fun name => name ++ [LF]) paths).

(** [main]: the standard output of the command, or how it stopped, and
    the store it leaves; [None] when [write-tree] is still looking for
    [.git] after [fuel] steps. *)
Definition main (fuel : nat) (w : world) (args : list bytes) (s : fs)
    : option (outcome bytes * fs) :=
  if (length args <? 2)%nat then Some (Exit1 (lit "usage: mygit <command> [<args>...]"), s)
  else
    let command := arg args 1 in
    if decide (command = lit "init") then
      Some (Done (lit "Initialized git directory" ++ [LF]), init s)
    else if decide (command = lit "cat-file") then
      if (length args <? 4)%nat
      then Some (Exit1 (lit "usage: mygit cat-file -p <blob_hash>"), s)
      else Some (cat_file zlib_read (arg args 3) s, s)
    else if decide (command = lit "hash-object") then
      if (length args <? 4)%nat
      then Some (Exit1 (lit "usage: mygit hash-object -w <file>"), s)
      else Some (hash_object compress (file_at w (arg args 3)) s)
    else if decide (command = lit "ls-tree") then
      if (length args <? 4)%nat
      then Some (Exit1 (lit "usage: mygit ls-tree --name-only <tree-SHA>"), s)
      else
        match ls_tree zlib_read (arg args 3) s with
        | None => None
        | Some (Done paths) => Some (Done (print_lines paths), s)
        | Some (Exit1 msg) => Some (Exit1 msg, s)
        | Some Panic => Some (Panic, s)
        end
    else if decide (command = lit "write-tree") then write_tree fuel w s
    else if decide (command = lit "commit-tree") then Some (commit_tree_cmd w args s)
    else Some (Exit1 (lit "Unknown command " ++ command), s).

End Main.

(** ** Worlds for the examples *)

Definition repo_dir : path := [lit "home"; lit "repo"].

(** The working directory is [/home/repo/src]; [/home/repo] has the
    entry [.git] and holds [work_tree]. *)
Definition world_in_subdirectory : world :=
  {| now := 0; zone := 0;
     cwd := [lit "home"; lit "repo"; lit "src"];
     has_git := fun dir => bool_decide (dir = repo_dir);
     tree_at := fun dir => if decide (dir = repo_dir) then work_tree else Dir [];
     file_at := fun _ => NonDir Regular None |}.

(** The working directory is [/tmp]; no directory has an entry [.git]. *)
Definition world_outside : world :=
  {| now := 0; zone := 0;
     cwd := [lit "tmp"];
     has_git := fun _ => false;
     tree_at := fun _ => Dir [];
     file_at := fun _ => NonDir Regular None |}.

(** A directory in which [.git] is a regular file. *)
Definition fs_git_is_file : fs :=
  {| dirs := ∅; files := {[ [lit ".git"] := lit "gitdir: elsewhere" ]}; denied := ∅ |}.

(** A world in which the file [a.txt] reads as [binary_content]. *)
Definition world_with_file : world :=
  {| now := 0; zone := 0;
     cwd := [lit "tmp"];
     has_git := fun _ => false;
     tree_at := fun _ => Dir [];
     file_at := fun f => if decide (f = lit "a.txt")
                         then NonDir Regular (Some binary_content)
                         else NonDir Regular None |}.

(** ** What the writers may change *)

(** From [s] to [s']: every file that is not the file of an object is
    as it was, and every file that was there is still there. *)
Definition only_objects_written (s s' : fs) : Prop :=
  (forall p, (forall sha, p <> obj_path sha) -> files s' !! p = files s !! p)
  /\ (forall p, is_Some (files s !! p) -> is_Some (files s' !! p)).

(** The names [hash_dir] records for a listing: all but [.git]. *)
Definition recorded_names (listing : list (bytes * node)) : list bytes :=
  filter (fun name => name <> lit ".git") (map fst listing).

(** What a successful call leaves for the digest it returns. *)
Definition stores_digest (s : fs) (d : bytes) (s' : fs) : Prop :=
  length d = 20%nat
  /\ is_Some (files s' !! obj_path (fmt_x d))
  /\ only_objects_written s s'.

(** A repository whose [HEAD] names the branch [dev]. *)
Definition fs_on_branch : fs :=
  {| dirs := {[ [lit ".git"] ]};
     files := {[ [lit ".git"; lit "HEAD"] := lit "ref: refs/heads/dev" ++ [LF] ]};
     denied := ∅ |}.

(** * Properties *)

(** ** [IndexByte] *)

Lemma IndexByte_range s c : -1 <= IndexByte s c < len s.
Proof.
  unfold len. induction s as [|x s IH]; simpl; [lia|].
  destruct (decide (x = c)); [lia|].
  destruct (Z.ltb_spec (IndexByte s c) 0); lia.
Qed.

Lemma IndexByte_absent s c : c ∉ s -> IndexByte s c = -1.
Proof.
  induction s as [|x s IH]; simpl; intros Hc; [reflexivity|].
  apply not_elem_of_cons in Hc as [Hx Hs].
  destruct (decide (x = c)); [congruence|].
  rewrite (IH Hs). reflexivity.
Qed.

Lemma IndexByte_first m c r : c ∉ m -> IndexByte (m ++ c :: r) c = len m.
Proof.
  unfold len. induction m as [|x m IH]; simpl; intros Hc.
  - destruct (decide (c = c)); [reflexivity|congruence].
  - apply not_elem_of_cons in Hc as [Hx Hm].
    destruct (decide (x = c)); [congruence|].
    rewrite (IH Hm).
    destruct (Z.ltb_spec (Z.of_nat (length m)) 0); lia.
Qed.

Lemma IndexByte_split s c :
  0 <= IndexByte s c ->
  exists m r, s = m ++ c :: r /\ (c ∉ m) /\ IndexByte s c = len m.
Proof.
  unfold len. induction s as [|x s IH]; simpl; [lia|].
  destruct (decide (x = c)) as [->|Hne]; intros Hi.
  - exists [], s. split; [reflexivity|]. split; [apply not_elem_of_nil|reflexivity].
  - destruct (Z.ltb_spec (IndexByte s c) 0) as [|Hge]; [lia|].
    destruct (IH Hge) as (m & r & -> & Hm & Hlen).
    exists (x :: m), r. split; [reflexivity|]. split.
    + apply not_elem_of_cons. split; [congruence|exact Hm].
    + simpl length. lia.
Qed.

Lemma IndexByte_neg_absent s c : IndexByte s c < 0 -> c ∉ s.
Proof.
  induction s as [|x s IH]; simpl; intros Hi; [apply not_elem_of_nil|].
  destruct (decide (x = c)); [lia|].
  destruct (Z.ltb_spec (IndexByte s c) 0); [|lia].
  apply not_elem_of_cons. split; [congruence|auto].
Qed.

(** ** The order of Go strings *)

Lemma byte_val_inj a b : byte_val a = byte_val b -> a = b.
Proof.
  unfold byte_val. intros H. apply N2Z.inj in H.
  assert (Some a = Some b) as [= ->]; [|reflexivity].
  rewrite <- (Byte.of_to_N a), <- (Byte.of_to_N b). congruence.
Qed.

Lemma byte_val_range b : 0 <= byte_val b < 256.
Proof. unfold byte_val. pose proof (Byte.to_N_bounded b). lia. Qed.

Lemma bytes_ltb_irrefl s : bytes_ltb s s = false.
Proof.
  induction s as [|x s IH]; simpl; [reflexivity|].
  rewrite Z.ltb_irrefl. exact IH.
Qed.

Lemma bytes_ltb_trans s t u :
  bytes_ltb s t = true -> bytes_ltb t u = true -> bytes_ltb s u = true.
Proof.
  revert t u. induction s as [|x s IH]; intros [|y t] [|z u]; simpl; try congruence.
  destruct (Z.ltb_spec (byte_val x) (byte_val y)),
           (Z.ltb_spec (byte_val y) (byte_val x)),
           (Z.ltb_spec (byte_val y) (byte_val z)),
           (Z.ltb_spec (byte_val z) (byte_val y)),
           (Z.ltb_spec (byte_val x) (byte_val z)),
           (Z.ltb_spec (byte_val z) (byte_val x));
    try lia; try congruence; eauto.
Qed.

Lemma bytes_ltb_total s t :
  bytes_ltb s t = false -> bytes_ltb t s = false -> s = t.
Proof.
  revert t. induction s as [|x s IH]; intros [|y t]; simpl; try congruence.
  destruct (Z.ltb_spec (byte_val x) (byte_val y)),
           (Z.ltb_spec (byte_val y) (byte_val x)); try lia; try congruence.
  intros H1 H2. f_equal; [apply byte_val_inj; lia|auto].
Qed.

Lemma bytes_ltb_asym s t : bytes_ltb s t = true -> bytes_ltb t s = false.
Proof.
  intros H. destruct (bytes_ltb t s) eqn:E; [|reflexivity].
  pose proof (bytes_ltb_trans _ _ _ H E) as Hc.
  rewrite bytes_ltb_irrefl in Hc. congruence.
Qed.

(** A name without a NUL byte that is smaller stays smaller when both
    names are followed by NUL and a digest. *)
Lemma bytes_ltb_key n1 n2 d1 d2 :
  NUL ∉ n2 ->
  bytes_ltb n1 n2 = true ->
  bytes_ltb (n1 ++ NUL :: d1) (n2 ++ NUL :: d2) = true.
Proof.
  revert n2. induction n1 as [|x n1 IH]; intros [|y n2] Hn; simpl; try congruence.
  - intros _. apply not_elem_of_cons in Hn as [Hy _].
    change (byte_val NUL) with 0.
    pose proof (byte_val_range y).
    assert (byte_val y <> 0).
    { intros E. apply Hy. symmetry. apply byte_val_inj. exact E. }
    destruct (Z.ltb_spec 0 (byte_val y)); [reflexivity|lia].
  - apply not_elem_of_cons in Hn as [_ Hn].
    destruct (byte_val x <? byte_val y); [reflexivity|].
    destruct (byte_val y <? byte_val x); [congruence|].
    apply IH. exact Hn.
Qed.

(** ** The characters written by [fmt] *)

Lemma byte_val_of_Z z : byte_val (byte_of_Z z) = z mod 256.
Proof.
  unfold byte_val, byte_of_Z.
  pose proof (Z.mod_pos_bound z 256 ltac:(lia)) as Hr.
  destruct (Byte.of_N (Z.to_N (z mod 256))) as [b|] eqn:E.
  - apply Byte.to_of_N in E. rewrite E. lia.
  - apply Byte.of_N_None_iff in E. lia.
Qed.

Lemma plain_of_val b : 33 <= byte_val b -> plain b.
Proof.
  intros H. repeat split; intros ->; revert H; unfold byte_val; simpl; lia.
Qed.

Lemma digit_char_plain d : 0 <= d < 16 -> plain (digit_char d).
Proof.
  intros Hd. apply plain_of_val. unfold digit_char.
  destruct (Z.ltb_spec d 10); rewrite byte_val_of_Z, Z.mod_small; lia.
Qed.

Lemma digits_fuel_plain fuel base n acc :
  0 < base <= 16 -> Forall plain acc -> Forall plain (digits_fuel fuel base n acc).
Proof.
  intros Hb. revert n acc. induction fuel as [|fuel IH]; intros n acc Hacc; simpl; [exact Hacc|].
  assert (Forall plain (digit_char (n mod base) :: acc)) as Hacc'.
  { constructor; [|exact Hacc]. apply digit_char_plain.
    pose proof (Z.mod_pos_bound n base). lia. }
  destruct (n / base =? 0); [exact Hacc'|]. apply IH. exact Hacc'.
Qed.

Lemma fmt_int_plain base n : 0 < base <= 16 -> Forall plain (fmt_int base n).
Proof.
  intros Hb. unfold fmt_int, digits.
  destruct (n <? 0).
  - apply Forall_app. split.
    + repeat constructor; discriminate.
    + apply digits_fuel_plain; [exact Hb|constructor].
  - apply digits_fuel_plain; [exact Hb|constructor].
Qed.

Lemma plain_not_in (c : byte) s : ~ plain c -> Forall plain s -> c ∉ s.
Proof.
  intros Hc Hs Hin. rewrite Forall_forall in Hs. apply Hc, Hs. exact Hin.
Qed.

Lemma NUL_not_plain : ~ plain NUL.
Proof. intros (H & _). congruence. Qed.
Lemma SP_not_plain : ~ plain SP.
Proof. intros (_ & H & _). congruence. Qed.
Lemma LF_not_plain : ~ plain LF.
Proof. intros (_ & _ & H). congruence. Qed.

Lemma fmt_d_plain n : Forall plain (fmt_d n).
Proof. apply fmt_int_plain. lia. Qed.

Lemma fmt_o_plain n : Forall plain (fmt_o n).
Proof. apply fmt_int_plain. lia. Qed.

Lemma fmt_x_plain s : Forall plain (fmt_x s).
Proof.
  unfold fmt_x. induction s as [|b s IH]; simpl; [constructor|].
  pose proof (byte_val_range b).
  constructor; [|constructor; [|exact IH]]; apply digit_char_plain.
  - split; [apply Z.div_pos; lia|apply Z.div_lt_upper_bound; lia].
  - pose proof (Z.mod_pos_bound (byte_val b) 16). lia.
Qed.

Lemma fmt_x_length s : length (fmt_x s) = (2 * length s)%nat.
Proof. unfold fmt_x. induction s as [|b s IH]; simpl; [reflexivity|]. rewrite IH. lia. Qed.

(** ** The digest has twenty bytes *)

Lemma be_bytes_length n z : length (SHA1.be_bytes n z) = n.
Proof. unfold SHA1.be_bytes. rewrite length_map, length_rev, length_seq. reflexivity. Qed.

Lemma Sum_length m : length (SHA1.Sum m) = 20%nat.
Proof.
  unfold SHA1.Sum.
  destruct (fold_left SHA1.block _ SHA1.init) as [[[[h0 h1] h2] h3] h4].
  rewrite !length_app, !be_bytes_length. reflexivity.
Qed.

Lemma hex_digest_length m : length (fmt_x (SHA1.Sum m)) = 40%nat.
Proof. rewrite fmt_x_length, Sum_length. reflexivity. Qed.

(** ** The file system *)

Lemma mkdir_chain_keeps ps s :
  files (snd (mkdir_chain ps s)) = files s
  /\ denied (snd (mkdir_chain ps s)) = denied s
  /\ (forall p, p ∈ dirs s -> p ∈ dirs (snd (mkdir_chain ps s)))
  /\ (forall p, p ∈ dirs (snd (mkdir_chain ps s)) -> p ∈ dirs s \/ p ∈ ps).
Proof.
  revert s. induction ps as [|p ps IH]; intros s; simpl.
  - repeat split; auto.
  - destruct (is_dir s p) eqn:Hd.
    + destruct (IH s) as (Hf & Hn & Hsub & Hnew).
      repeat split; try assumption.
      intros q Hq. destruct (Hnew q Hq); [left|right; apply elem_of_cons; right]; assumption.
    + destruct (is_file s p || bool_decide (p ∈ denied s)); simpl.
      * repeat split; auto.
      * match goal with |- context [mkdir_chain ps ?s1] =>
          destruct (IH s1) as (Hf & Hn & Hsub & Hnew) end.
        simpl in *. repeat split; try assumption.
        -- intros q Hq. apply Hsub, elem_of_union. right. exact Hq.
        -- intros q Hq. destruct (Hnew q Hq) as [Hq'|Hq'].
           ++ apply elem_of_union in Hq' as [Hq'|Hq']; [|left; exact Hq'].
              apply elem_of_singleton in Hq' as ->. right. apply elem_of_cons. left. reflexivity.
           ++ right. apply elem_of_cons. right. exact Hq'.
Qed.

Lemma is_dir_mono ps s p : is_dir s p = true -> is_dir (snd (mkdir_chain ps s)) p = true.
Proof.
  unfold is_dir. rewrite !bool_decide_eq_true. intros H.
  destruct (mkdir_chain_keeps ps s) as (_ & _ & Hsub & _). auto.
Qed.

Lemma is_dir_created s p :
  is_dir {| dirs := {[p]} ∪ dirs s; files := files s; denied := denied s |} p = true.
Proof.
  unfold is_dir. simpl. apply bool_decide_eq_true, elem_of_union. left.
  apply elem_of_singleton. reflexivity.
Qed.



Lemma mkdir_chain_ok ps s :
  forallb (fun p => negb (is_file s p) && negb (bool_decide (p ∈ denied s))) ps = true ->
  fst (mkdir_chain ps s) = Ok tt
  /\ forallb (is_dir (snd (mkdir_chain ps s))) ps = true.
Proof.
  revert s. induction ps as [|p ps IH]; intros s; simpl; [auto|].
  intros H. rewrite !andb_true_iff, !negb_true_iff in H. destruct H as [[Hf Hn] Hps].
  destruct (is_dir s p) eqn:Hd.
  - destruct (IH s Hps) as [Hok Hall]. split; [exact Hok|].
    rewrite (is_dir_mono ps s p Hd). exact Hall.
  - rewrite Hf, Hn. simpl.
    destruct (IH {| dirs := {[p]} ∪ dirs s; files := files s; denied := denied s |})
      as [Hok Hall]; [exact Hps|].
    split; [exact Hok|].
    rewrite (is_dir_mono ps _ p (is_dir_created s p)). exact Hall.
Qed.


(** ** [put] *)

Lemma obj_path_not_bucket_prefix sha : obj_path sha ∉ prefixes (bucket_path sha).
Proof.
  unfold prefixes, bucket_path, obj_path. simpl.
  rewrite !not_elem_of_cons. repeat split; try discriminate. apply not_elem_of_nil.
Qed.

Lemma parent_obj_path sha : parent (obj_path sha) = bucket_path sha.
Proof. reflexivity. Qed.


Lemma put_unfold sha data s :
  put sha data s =
  if stat_not_exist s (obj_path sha) then
    match MkdirAll (bucket_path sha) s with
    | (Ok _, s1) => WriteFile (obj_path sha) data s1
    | (Err e, s1) => (Err e, s1)
    end
  else WriteFile (obj_path sha) data s.
Proof.
  unfold put, bind. destruct (stat_not_exist s (obj_path sha)); [|reflexivity].
  destruct (MkdirAll (bucket_path sha) s) as [[[]|e] s1]; reflexivity.
Qed.

Lemma WriteFile_inv p data s r s' :
  WriteFile p data s = (r, s') ->
  (r = Ok tt /\ files s' = <[p := data]> (files s) /\ dirs s' = dirs s
   /\ denied s' = denied s /\ is_dir s p = false)
  \/ (r = Err (WriteError p) /\ s' = s).
Proof.
  unfold WriteFile. destruct (is_dir s p) eqn:Hd; simpl.
  - intros [= <- <-]. right. auto.
  - destruct (_ || _); intros [= <- <-]; [right|left]; auto.
Qed.

(** What a successful [put] leaves: the object's file holds the new
    data, whatever was there before. *)
Lemma put_ok_inv sha data s s' :
  put sha data s = (Ok tt, s') ->
  files s' = <[obj_path sha := data]> (files s) /\ denied s' = denied s.
Proof.
  rewrite put_unfold.
  destruct (stat_not_exist s (obj_path sha)).
  - unfold MkdirAll.
    pose proof (mkdir_chain_keeps (prefixes (bucket_path sha)) s) as (Hf & Hn & _).
    destruct (mkdir_chain _ s) as [[[]|e] s1]; [|discriminate]. cbn [snd] in Hf, Hn |- *.
    intros H. apply WriteFile_inv in H as [(_ & H1 & _ & H2 & _)|[? _]]; [|discriminate].
    rewrite H1, H2, Hf, Hn. auto.
  - intros H. apply WriteFile_inv in H as [(_ & H1 & _ & H2 & _)|[? _]]; [|discriminate].
    auto.
Qed.

(** A failed [put] writes no file. *)
Lemma put_err_inv sha data s e s' :
  put sha data s = (Err e, s') ->
  files s' = files s /\ e <> ReadError.
Proof.
  rewrite put_unfold.
  destruct (stat_not_exist s (obj_path sha)).
  - unfold MkdirAll.
    pose proof (mkdir_chain_keeps (prefixes (bucket_path sha)) s) as (Hf & _).
    assert (forall ps s0 e0 s1, mkdir_chain ps s0 = (Err e0, s1) -> e0 <> ReadError) as Hne.
    { induction ps as [|p ps IH]; intros s0 e0 s1; simpl; [discriminate|].
      destruct (is_dir s0 p); [apply IH|].
      destruct (_ || _); [intros [= <- _]; discriminate|apply IH]. }
    destruct (mkdir_chain _ s) as [[[]|e1] s1] eqn:E; cbn [snd] in Hf |- *.
    + intros H. apply WriteFile_inv in H as [(? & _)|[[= ->] ->]]; [discriminate|].
      split; [exact Hf|discriminate].
    + intros [= <- <-]. split; [exact Hf|]. eapply Hne, E.
  - intros H. apply WriteFile_inv in H as [(? & _)|[[= ->] ->]]; [discriminate|].
    split; [reflexivity|discriminate].
Qed.




Lemma put_ok sha data s :
  can_put s sha = true -> exists s', put sha data s = (Ok tt, s').
Proof.
  unfold can_put. rewrite !andb_true_iff, !negb_true_iff.
  intros [[[Hway Hnd] Hden] Hfile].
  rewrite put_unfold.
  destruct (stat_not_exist s (obj_path sha)) eqn:Hstat.
  - destruct (mkdir_chain_ok _ _ Hway) as [Hok Hall].
    destruct (mkdir_chain_keeps (prefixes (bucket_path sha)) s) as (_ & Hn & _ & Hnew).
    unfold MkdirAll.
    destruct (mkdir_chain (prefixes (bucket_path sha)) s) as [r s1]; cbn [fst snd] in *.
    subst r. unfold WriteFile. rewrite parent_obj_path, Hall, Hn, Hden.
    assert (is_dir s1 (obj_path sha) = false) as ->.
    { unfold is_dir in *. apply bool_decide_eq_false. intros Hin.
      apply bool_decide_eq_false in Hnd.
      destruct (Hnew _ Hin) as [?|Hp]; [contradiction|].
      exact (obj_path_not_bucket_prefix sha Hp). }
    simpl. eauto.
  - unfold WriteFile. rewrite parent_obj_path, Hnd, Hden.
    assert (forallb (is_dir s) (prefixes (bucket_path sha)) = true) as ->.
    { apply orb_true_iff in Hfile as [Hfile|Hfile]; [|exact Hfile].
      apply negb_true_iff in Hfile.
      unfold stat_not_exist in Hstat. rewrite Hnd, Hfile, parent_obj_path in Hstat.
      cbn [negb andb] in Hstat. exfalso.
      assert (forallb (fun q => negb (is_file s q)) (prefixes (bucket_path sha)) = true) as Hc.
      { clear -Hway. induction (prefixes (bucket_path sha)) as [|q l IH]; simpl in *; [reflexivity|].
        rewrite !andb_true_iff in *. destruct Hway as [[? _] ?]. auto. }
      congruence. }
    simpl. eauto.
Qed.

(** ** The order of tree entries *)

Lemma sort_key_format m n d : sort_key (format_entry m n d) = n ++ NUL :: d.
Proof.
  unfold sort_key, format_entry.
  change (fmt_o m ++ [SP] ++ n ++ [NUL] ++ d) with (fmt_o m ++ SP :: n ++ NUL :: d).
  rewrite IndexByte_first by (apply (plain_not_in SP); [apply SP_not_plain|apply fmt_o_plain]).
  unfold len. replace (Z.to_nat (Z.of_nat (length (fmt_o m)) + 1)) with (length (fmt_o m) + 1)%nat by lia.
  rewrite drop_app_add'; [|reflexivity]. reflexivity.
Qed.

#[local] Instance entry_le_total : Total entry_le.
Proof.
  intros a b. unfold entry_le, less.
  destruct (bytes_ltb (sort_key b) (sort_key a)) eqn:E; [right|left; reflexivity].
  apply bytes_ltb_asym. exact E.
Qed.

#[local] Instance entry_le_trans : Transitive entry_le.
Proof.
  intros a b c. unfold entry_le, less. intros Hab Hbc.
  destruct (bytes_ltb (sort_key c) (sort_key a)) eqn:Hca; [|reflexivity].
  destruct (bytes_ltb (sort_key a) (sort_key b)) eqn:Hab'.
  - rewrite (bytes_ltb_trans _ _ _ Hca Hab') in Hbc. discriminate.
  - rewrite <- (bytes_ltb_total _ _ Hab' Hab) in Hbc. congruence.
Qed.

Lemma sort_entries_sorted l : StronglySorted entry_le (sort_entries l).
Proof. apply StronglySorted_merge_sort; apply _. Qed.

Lemma sort_entries_perm l : sort_entries l ≡ₚ l.
Proof. apply merge_sort_Permutation. Qed.

Lemma entry_le_name_le a b :
  NUL ∉ name a -> entry_le (format a) (format b) -> name_le a b.
Proof.
  unfold entry_le, less, name_le, format. rewrite !sort_key_format.
  intros Hn Hle. destruct (bytes_ltb (name b) (name a)) eqn:E; [|reflexivity].
  rewrite (bytes_ltb_key _ _ (child b) (child a) Hn E) in Hle. discriminate.
Qed.

Lemma key_name_inj n1 n2 d1 d2 :
  NUL ∉ n1 -> NUL ∉ n2 -> n1 ++ NUL :: d1 = n2 ++ NUL :: d2 -> n1 = n2.
Proof.
  intros H1 H2 E.
  assert (length n1 = length n2) as Hlen.
  { pose proof (IndexByte_first n1 NUL d1 H1) as I1.
    pose proof (IndexByte_first n2 NUL d2 H2) as I2.
    rewrite E in I1. unfold len in *. lia. }
  apply app_inj_1 in E as [E _]; [exact E|exact Hlen].
Qed.

Lemma NoDup_map_inj {A B} (f : A -> B) (l : list A) a b :
  NoDup (map f l) -> a ∈ l -> b ∈ l -> f a = f b -> a = b.
Proof.
  induction l as [|x l IH]; simpl; intros Hnd Ha Hb E.
  - apply elem_of_nil in Ha. contradiction.
  - apply NoDup_cons in Hnd as [Hx Hnd].
    apply elem_of_cons in Ha as [->|Ha], Hb as [->|Hb]; auto.
    + exfalso. apply Hx. rewrite E. apply list_elem_of_In, in_map, list_elem_of_In, Hb.
    + exfalso. apply Hx. rewrite <- E. apply list_elem_of_In, in_map, list_elem_of_In, Ha.
Qed.

Lemma names_sorted es :
  Forall (fun e => NUL ∉ name e) es ->
  StronglySorted entry_le (map format es) -> StronglySorted name_le es.
Proof.
  induction es as [|a es IH]; simpl; intros Hn Hs; [constructor|].
  apply Forall_cons in Hn as [Ha Hn].
  apply StronglySorted_inv in Hs as [Hs Hhd].
  constructor; [apply IH; assumption|].
  rewrite Forall_forall in Hhd. apply Forall_forall. intros b Hb.
  apply entry_le_name_le; [exact Ha|].
  apply Hhd, list_elem_of_In, in_map, list_elem_of_In, Hb.
Qed.

(** C4.  For tree entries with pairwise distinct names (directory
    names: no NUL byte), given in any order, the payload of the tree
    object lists the entries in non-decreasing byte-wise order of
    their names: the sorted entries [es'] are a rearrangement of the
    given ones, the object is the header followed by their
    concatenation, and every rearrangement of the input produces the
    same object. *)
Theorem tree_entries_sorted_by_name (es : list entry) :
  NoDup (map name es) ->
  Forall (fun e => NUL ∉ name e) es ->
  exists es',
    es' ≡ₚ es
    /\ StronglySorted name_le es'
    /\ sort_entries (map format es) = map format es'
    /\ tree_object (map format es)
       = lit "tree " ++ fmt_d (len (concat (map format es'))) ++ [NUL]
         ++ concat (map format es')
    /\ forall es2, es2 ≡ₚ es -> tree_object (map format es2) = tree_object (map format es).
Proof.
  intros Hnd Hnul.
  pose proof (sort_entries_perm (map format es)) as Hp.
  apply Permutation_map_inv in Hp as (es' & Heq & Hperm).
  assert (Forall (fun e => NUL ∉ name e) es') as Hnul'.
  { rewrite Forall_forall in *. intros e He. apply Hnul. rewrite Hperm. exact He. }
  exists es'. split; [symmetry; exact Hperm|]. split; [|split; [exact Heq|split]].
  - apply names_sorted; [exact Hnul'|]. rewrite <- Heq. apply sort_entries_sorted.
  - unfold tree_object. rewrite Heq. reflexivity.
  - intros es2 H2. unfold tree_object.
    replace (sort_entries (map format es2)) with (sort_entries (map format es)); [reflexivity|].
    apply (StronglySorted_unique_strong entry_le);
      [|apply sort_entries_sorted|apply sort_entries_sorted|].
    + intros x1 x2 Hx1 Hx2 H12 H21.
      rewrite sort_entries_perm in Hx1, Hx2.
      apply list_elem_of_In, in_map_iff in Hx1 as (e1 & <- & He1).
      apply list_elem_of_In, in_map_iff in Hx2 as (e2 & <- & He2).
      apply list_elem_of_In in He1, He2. rewrite H2 in He2.
      f_equal. apply (NoDup_map_inj name es); [exact Hnd|exact He1|exact He2|].
      unfold entry_le, less, format in H12, H21. rewrite !sort_key_format in H12, H21.
      rewrite Forall_forall in Hnul.
      apply (key_name_inj _ _ (child e1) (child e2)); [apply Hnul, He1|apply Hnul, He2|].
      apply bytes_ltb_total; assumption.
    + rewrite !sort_entries_perm. apply Permutation_map. symmetry. exact H2.
Qed.

(** ** Writes to the store *)




(** ** The parser of [ls-tree] *)

Lemma first_split_unique (c : byte) m r m' r' :
  c ∉ m -> c ∉ m' -> m ++ c :: r = m' ++ c :: r' -> m = m' /\ r = r'.
Proof.
  intros Hm Hm' E.
  assert (length m = length m') as Hlen.
  { pose proof (IndexByte_first m c r Hm) as I1.
    pose proof (IndexByte_first m' c r' Hm') as I2.
    rewrite E in I1. unfold len in *. lia. }
  apply app_inj_1 in E as [-> [= ->]]; auto.
Qed.

Lemma take_drop_first m (c : byte) r n :
  n = len m ->
  take (Z.to_nat n) (m ++ c :: r) = m
  /\ drop (length m + 1) (m ++ c :: r) = r.
Proof.
  intros ->. unfold len. rewrite Nat2Z.id. split.
  - rewrite take_app_length. reflexivity.
  - rewrite drop_app_add'; reflexivity.
Qed.

Lemma ls_tree_loop_spec fuel p acc :
  (length p < fuel)%nat ->
  (exists names, tree_payload p names
                 /\ ls_tree_loop fuel p acc = Some (Done (acc ++ names)))
  \/ ((forall names, ~ tree_payload p names)
      /\ ls_tree_loop fuel p acc = Some Panic).
Proof.
  revert p acc. induction fuel as [|fuel IH]; intros p acc Hfuel; [lia|].
  simpl. destruct (decide (p = [])) as [->|Hne].
  { left. exists []. split; [constructor|]. rewrite app_nil_r. reflexivity. }
  destruct (Z.ltb_spec (IndexByte p SP) 0) as [Hsp|Hsp].
  { right. split; [|reflexivity]. intros names Hwf.
    apply IndexByte_neg_absent in Hsp. inversion Hwf; subst; [congruence|].
    apply Hsp, elem_of_app. right. left. }
  destruct (IndexByte_split p SP Hsp) as (m & r & -> & Hm & Hidx).
  destruct (take_drop_first m SP r _ Hidx) as [Htake Hdrop].
  rewrite Htake, Hdrop.
  destruct (Z.ltb_spec (IndexByte r NUL) 0) as [Hnul|Hnul].
  { right. split; [|reflexivity]. intros names Hwf.
    apply IndexByte_neg_absent in Hnul. inversion Hwf as [|m' n sha rest ns Hm' Hn Hs Hr E]; subst.
    { destruct m; discriminate. }
    apply first_split_unique in E as [-> <-]; [|assumption..].
    apply Hnul, elem_of_app. right. left. }
  destruct (IndexByte_split r NUL Hnul) as (n & r2 & -> & Hn & Hidx2).
  destruct (take_drop_first n NUL r2 _ Hidx2) as [Htake2 Hdrop2].
  rewrite Htake2, Hdrop2.
  destruct (Z.ltb_spec (len r2) 20) as [Hshort|Hlong].
  { right. split; [|reflexivity]. intros names Hwf.
    inversion Hwf as [|m' n' sha rest ns Hm' Hn' Hs Hr E]; subst.
    { destruct m; discriminate. }
    apply first_split_unique in E as [-> E]; [|assumption..].
    apply first_split_unique in E as [-> <-]; [|assumption..].
    unfold len in Hshort. rewrite length_app in Hshort. lia. }
  unfold len in Hlong.
  assert (length (take 20 r2) = 20%nat) as Hsha by (rewrite length_take; lia).
  rewrite Hsha.
  destruct (IH (drop 20 r2) (acc ++ [n])) as [(names & Hwf & Hrun)|[Hbad Hrun]].
  { rewrite length_drop. rewrite length_app in Hfuel. cbn [length] in Hfuel.
    rewrite length_app in Hfuel. cbn [length] in Hfuel. lia. }
  - left. exists (n :: names). split.
    + rewrite <- (take_drop 20 r2) at 1. constructor; assumption.
    + rewrite Hrun, <- app_assoc. reflexivity.
  - right. split; [|exact Hrun]. intros names Hwf.
    inversion Hwf as [|m' n' sha rest ns Hm' Hn' Hs Hr E]; subst.
    { destruct m; discriminate. }
    apply first_split_unique in E as [-> E]; [|assumption..].
    apply first_split_unique in E as [-> <-]; [|assumption..].
    apply (Hbad ns). rewrite drop_app_length'; [exact Hr|symmetry; exact Hs].
Qed.

(** [ls-tree] finds the payload of a tree object behind its header. *)
Lemma ls_tree_parse_object payload :
  ls_tree_parse (lit "tree " ++ fmt_d (len payload) ++ [NUL] ++ payload)
  = ls_tree_loop (S (length payload)) payload [].
Proof.
  unfold ls_tree_parse.
  replace (lit "tree " ++ fmt_d (len payload) ++ [NUL] ++ payload)
    with ((lit "tree " ++ fmt_d (len payload)) ++ NUL :: payload)
    by (rewrite <- app_assoc; reflexivity).
  set (pre := lit "tree " ++ fmt_d (len payload)).
  assert (NUL ∉ pre) as Hpre.
  { apply not_elem_of_app. split.
    - apply (bool_decide_unpack _). vm_compute. exact I.
    - apply (plain_not_in NUL); [apply NUL_not_plain|apply fmt_d_plain]. }
  rewrite (IndexByte_first pre NUL payload Hpre).
  assert (drop (Z.to_nat (len pre + 1)) (pre ++ NUL :: payload) = payload) as ->.
  { unfold len. replace (Z.to_nat (Z.of_nat (length pre) + 1)) with (length pre + 1)%nat by lia.
    rewrite drop_app_add'; reflexivity. }
  reflexivity.
Qed.

(** C5, as stated, fails: on a payload that ends inside an entry the
    parser stops with a run-time panic (a slice bound out of range); it
    does not report an error.  Shown where the payload ends in the
    mode, in the name, and in the digest. *)
Lemma ls_tree_truncated_panics :
  ls_tree_parse (lit "tree 4" ++ [NUL] ++ truncated_in_mode) = Some Panic
  /\ ls_tree_parse (lit "tree 11" ++ [NUL] ++ truncated_in_name) = Some Panic
  /\ ls_tree_parse (lit "tree 32" ++ [NUL] ++ truncated_in_digest) = Some Panic.
Proof. vm_compute. auto. Qed.

(** C5, amended.  The parser takes the entries one after the other: a
    mode up to the first space, a name up to the next NUL byte, then
    exactly twenty digest bytes.  It always terminates; on a payload
    made of such entries it returns their names in order, and on every
    other payload, one that ends inside an entry, it stops with a
    run-time panic. *)
Theorem ls_tree_parses_or_panics (payload : bytes) :
  (exists names,
      tree_payload payload names
      /\ ls_tree_parse (lit "tree " ++ fmt_d (len payload) ++ [NUL] ++ payload)
         = Some (Done names))
  \/ ((forall names, ~ tree_payload payload names)
      /\ ls_tree_parse (lit "tree " ++ fmt_d (len payload) ++ [NUL] ++ payload)
         = Some Panic).
Proof.
  rewrite ls_tree_parse_object.
  apply (ls_tree_loop_spec (S (length payload)) payload []). lia.
Qed.

(** ** Digests of the stored objects *)

Lemma run_put_ret {A} sha data (a : A) s :
  (run put sha data in ret a) s
  = match put sha data s with
    | (Ok _, s') => (Ok a, s')
    | (Err e, s') => (Err e, s')
    end.
Proof. unfold bind, ret. destruct (put sha data s) as [[[]|e] s']; reflexivity. Qed.

(** What the three writers have in common: on success the bytes
    [compress object] are in the file named after [digest]. *)
Lemma stored_under sha object (d : bytes) s (compress : bytes -> bytes) :
  match (run put sha (compress object) in ret d) s with
  | (Ok d', s') => d' = d /\ files s' !! obj_path sha = Some (compress object)
  | (Err e, s') => files s' = files s /\ e <> ReadError
  end.
Proof.
  rewrite run_put_ret.
  destruct (put sha (compress object) s) as [[[]|e] s'] eqn:E.
  - apply put_ok_inv in E as [E _]. split; [reflexivity|].
    rewrite E. apply lookup_insert_eq.
  - apply put_err_inv in E. exact E.
Qed.

Section Digests.

Variable compress : bytes -> bytes.

(** A blob is stored under the digest of its header and content. *)
Lemma hash_file_digest k c s :
  match hash_file compress (NonDir k (Some c)) s with
  | (Ok d, s') =>
      d = SHA1.Sum (blob_object c)
      /\ files s' !! obj_path (fmt_x (SHA1.Sum (blob_object c)))
         = Some (compress (blob_object c))
  | (Err e, s') => files s' = files s /\ e <> ReadError
  end.
Proof. apply stored_under. Qed.

(** A tree is stored under the digest of its header and entries. *)
Lemma encode_tree_digest entries s :
  match encode_tree compress entries s with
  | (Ok d, s') =>
      d = SHA1.Sum (tree_object entries)
      /\ files s' !! obj_path (fmt_x (SHA1.Sum (tree_object entries)))
         = Some (compress (tree_object entries))
  | (Err e, s') => files s' = files s /\ e <> ReadError
  end.
Proof. apply stored_under. Qed.

(** A commit is stored under the digest of its payload, without the
    header; the file holds the header and the payload. *)
Lemma commit_tree_digest ts off T P msg s :
  match commit_tree compress ts off T P msg s with
  | (Ok d, s') =>
      d = SHA1.Sum (commit_payload ts off T P msg)
      /\ files s' !! obj_path (fmt_x (SHA1.Sum (commit_payload ts off T P msg)))
         = Some (compress (commit_object (commit_payload ts off T P msg)))
  | (Err e, s') => files s' = files s /\ e <> ReadError
  end.
Proof. apply stored_under. Qed.

(** C1 fails for commits.  [hash_file] and [hash_dir] return the
    SHA-1 of header and payload ([hash_file_digest],
    [encode_tree_digest]); [commit_tree] computes the digest before it
    adds the header: whenever it succeeds it returns the SHA-1 of the
    payload alone, and for the first commit of the empty tree with
    message [init] this is not the SHA-1 of the serialized object. *)
Theorem commit_tree_digest_omits_header :
  (forall ts off T P msg s,
      match fst (commit_tree compress ts off T P msg s) with
      | Ok d => d = SHA1.Sum (commit_payload ts off T P msg)
      | Err _ => True
      end)
  /\ fst (commit_tree compress 0 0 empty_tree_sha [] (lit "init") fs_init)
     = Ok (SHA1.Sum init_payload)
  /\ SHA1.Sum init_payload <> SHA1.Sum (commit_object init_payload).
Proof.
  split; [|split].
  - intros ts off T P msg s.
    pose proof (commit_tree_digest ts off T P msg s) as H.
    destruct (commit_tree compress ts off T P msg s) as [[d|e] s']; [|exact I].
    apply H.
  - vm_compute. reflexivity.
  - intros H. vm_compute in H. discriminate.
Qed.

End Digests.

(** ** The commit payload *)

(** C2 fails on the keywords.  The lines come in the order tree,
    parent (only when given), author, committer, then the blank line
    and the message when there is one; but [author] and [committer]
    already start with their keyword when the line is written with
    the keyword in front, so each of the two lines has it twice. *)
Theorem commit_payload_repeats_keywords (ts off : Z) (T P msg : bytes) :
  commit_payload ts off T P msg
  = (lit "tree " ++ T ++ [LF])
    ++ (if decide (P = []) then [] else lit "parent " ++ P ++ [LF])
    ++ (lit "author author Bocchi! The Rock <bocchi@therock.com> "
        ++ fmt_d ts ++ [SP] ++ fmt_zone off ++ [LF])
    ++ (lit "committer committer Bocchi! The Rock <bocchi@therock.com> "
        ++ fmt_d ts ++ [SP] ++ fmt_zone off ++ [LF])
    ++ (if decide (msg = []) then [] else [LF] ++ msg ++ [LF]).
Proof.
  unfold commit_payload, author, committer.
  change (lit "author author Bocchi! The Rock <bocchi@therock.com> ")
    with (lit "author " ++ lit "author Bocchi! The Rock <bocchi@therock.com> ").
  change (lit "committer committer Bocchi! The Rock <bocchi@therock.com> ")
    with (lit "committer " ++ lit "committer Bocchi! The Rock <bocchi@therock.com> ").
  rewrite <- !app_assoc. reflexivity.
Qed.

(** The first commit of tree [T] with message [init]: a [tree T] line,
    no parent line, the message section [init], and the doubled
    keywords. *)
Example commit_payload_init (T : bytes) :
  commit_payload 0 0 T [] (lit "init")
  = (lit "tree " ++ T ++ [LF])
    ++ lit "author author Bocchi! The Rock <bocchi@therock.com> 0 +0000" ++ [LF]
    ++ lit "committer committer Bocchi! The Rock <bocchi@therock.com> 0 +0000" ++ [LF]
    ++ [LF] ++ lit "init" ++ [LF].
Proof. vm_compute. reflexivity. Qed.

(** ** Blank lines *)

Lemma LF_not_in_plain s : Forall plain s -> LF ∉ s.
Proof. apply plain_not_in, LF_not_plain. Qed.

Lemma pad2_plain x : Forall plain (pad2 x).
Proof.
  unfold pad2. destruct (x <? 10); [|apply fmt_d_plain].
  apply Forall_app. split; [|apply fmt_d_plain].
  constructor; [|constructor]. apply plain_of_val. unfold byte_val. simpl. lia.
Qed.

Lemma fmt_zone_plain off : Forall plain (fmt_zone off).
Proof.
  unfold fmt_zone. destruct (_ <? 0);
    (apply Forall_app; split;
     [constructor; [|constructor]; apply plain_of_val; unfold byte_val; simpl; lia
     |apply Forall_app; split; apply pad2_plain]).
Qed.

(** A text made of non-empty lines, each ended by a line end, has no
    blank line. *)
Lemma lines_no_blank (lines : list bytes) :
  Forall (fun l => l <> [] /\ LF ∉ l) lines ->
  ~ has_blank_line (concat (map (fun l => l ++ [LF]) lines)).
Proof.
  induction lines as [|l lines IH]; simpl; intros Hl.
  - intros [[r E]|(a & b & E)]; [discriminate|]. destruct a; discriminate.
  - apply Forall_cons in Hl as [[Hne Hlf] Hl]. specialize (IH Hl).
    intros [[r E]|(a & b & E)].
    + destruct l as [|x l]; [congruence|]. simpl in E. injection E as -> _.
      apply Hlf. left.
    + rewrite <- app_assoc in E. simpl in E.
      destruct (decide (LF ∈ a)) as [Hin|Hnin].
      * apply list_elem_of_split_l in Hin as (a1 & a2 & -> & Ha1).
        rewrite <- app_assoc in E. simpl in E.
        apply first_split_unique in E as [-> E]; [|assumption..].
        apply IH. right. exists a2, b. exact E.
      * apply first_split_unique in E as [-> E]; [|assumption..].
        apply IH. left. exists b. exact E.
Qed.

Ltac by_compute := apply (bool_decide_unpack _); vm_compute; exact I.

Lemma identity_no_LF ts off :
  (LF ∉ author ts (fmt_zone off)) /\ (LF ∉ committer ts (fmt_zone off)).
Proof.
  unfold author, committer. split.
  all: apply not_elem_of_app; split; [by_compute|].
  all: apply not_elem_of_app; split; [apply LF_not_in_plain, fmt_d_plain|].
  all: apply not_elem_of_cons; split; [discriminate|apply LF_not_in_plain, fmt_zone_plain].
Qed.

Lemma lit_app_nonempty (a b : bytes) : a <> [] -> a ++ b <> [].
Proof. destruct a; [congruence|discriminate]. Qed.

(** C9.  With an empty message the payload is the tree line, the
    parent line when a parent is given, the author line and the
    committer line, and nothing more: it ends with the line end of the
    committer line, and (the digests being free of line ends) has no
    blank line. *)
Theorem commit_payload_without_message (ts off : Z) (T P : bytes) :
  LF ∉ T -> LF ∉ P ->
  commit_payload ts off T P []
  = (lit "tree " ++ T ++ [LF])
    ++ (if decide (P = []) then [] else lit "parent " ++ P ++ [LF])
    ++ (lit "author " ++ author ts (fmt_zone off) ++ [LF])
    ++ (lit "committer " ++ committer ts (fmt_zone off) ++ [LF])
  /\ (LF ∉ lit "committer " ++ committer ts (fmt_zone off))
  /\ ~ has_blank_line (commit_payload ts off T P []).
Proof.
  intros HT HP. destruct (identity_no_LF ts off) as [Ha Hc].
  assert (LF ∉ lit "tree " ++ T) as Htree
    by (apply not_elem_of_app; split; [by_compute|exact HT]).
  assert (LF ∉ lit "author " ++ author ts (fmt_zone off)) as Hauthor
    by (apply not_elem_of_app; split; [by_compute|exact Ha]).
  assert (LF ∉ lit "committer " ++ committer ts (fmt_zone off)) as Hcommitter
    by (apply not_elem_of_app; split; [by_compute|exact Hc]).
  assert (forall X : bytes, (if decide (@nil byte = []) then [] else X) = []) as Hmsg
    by (intros X; destruct (decide (@nil byte = [])); congruence).
  split; [|split; [exact Hcommitter|]].
  - unfold commit_payload. rewrite Hmsg, app_nil_r. reflexivity.
  - unfold commit_payload. rewrite Hmsg, app_nil_r.
    destruct (decide (P = [])) as [->|HPne].
    + replace ((lit "tree " ++ T ++ [LF]) ++ [] ++
                (lit "author " ++ author ts (fmt_zone off) ++ [LF]) ++
                lit "committer " ++ committer ts (fmt_zone off) ++ [LF])
        with (concat (map (fun l => l ++ [LF])
               [lit "tree " ++ T;
                lit "author " ++ author ts (fmt_zone off);
                lit "committer " ++ committer ts (fmt_zone off)]))
        by (cbn [concat map]; rewrite <- !app_assoc, ?app_nil_r; reflexivity).
      apply lines_no_blank.
      repeat constructor; try assumption; apply lit_app_nonempty; discriminate.
    + assert (LF ∉ lit "parent " ++ P) as Hparent
        by (apply not_elem_of_app; split; [by_compute|exact HP]).
      replace ((lit "tree " ++ T ++ [LF]) ++ (lit "parent " ++ P ++ [LF]) ++
                (lit "author " ++ author ts (fmt_zone off) ++ [LF]) ++
                lit "committer " ++ committer ts (fmt_zone off) ++ [LF])
        with (concat (map (fun l => l ++ [LF])
               [lit "tree " ++ T;
                lit "parent " ++ P;
                lit "author " ++ author ts (fmt_zone off);
                lit "committer " ++ committer ts (fmt_zone off)]))
        by (cbn [concat map]; rewrite <- !app_assoc, ?app_nil_r; reflexivity).
      apply lines_no_blank.
      repeat constructor; try assumption; apply lit_app_nonempty; discriminate.
Qed.

(** The theorem of C9 on the first commit of the empty tree. *)
Lemma commit_payload_without_message_witness :
  (LF ∉ empty_tree_sha) /\ (LF ∉ @nil byte)
  /\ (commit_payload 0 0 empty_tree_sha [] []
      = (lit "tree " ++ empty_tree_sha ++ [LF])
        ++ (if decide (@nil byte = []) then [] else lit "parent " ++ [] ++ [LF])
        ++ (lit "author " ++ author 0 (fmt_zone 0) ++ [LF])
        ++ (lit "committer " ++ committer 0 (fmt_zone 0) ++ [LF])
      /\ (LF ∉ lit "committer " ++ committer 0 (fmt_zone 0))
      /\ ~ has_blank_line (commit_payload 0 0 empty_tree_sha [] [])).
Proof.
  assert (LF ∉ empty_tree_sha) as H1 by by_compute.
  assert (LF ∉ @nil byte) as H2 by apply not_elem_of_nil.
  exact (conj H1 (conj H2 (commit_payload_without_message 0 0 empty_tree_sha [] H1 H2))).
Defined.

(** The theorem of C4 on [two_entries]. *)
Lemma tree_entries_sorted_by_name_witness :
  NoDup (map name two_entries)
  /\ Forall (fun e => NUL ∉ name e) two_entries
  /\ exists es',
      es' ≡ₚ two_entries
      /\ StronglySorted name_le es'
      /\ sort_entries (map format two_entries) = map format es'
      /\ tree_object (map format two_entries)
         = lit "tree " ++ fmt_d (len (concat (map format es'))) ++ [NUL]
           ++ concat (map format es')
      /\ forall es2, es2 ≡ₚ two_entries ->
           tree_object (map format es2) = tree_object (map format two_entries).
Proof.
  assert (NoDup (map name two_entries)) as H1 by by_compute.
  assert (Forall (fun e => NUL ∉ name e) two_entries) as H2 by by_compute.
  exact (conj H1 (conj H2 (tree_entries_sorted_by_name two_entries H1 H2))).
Defined.

(** ** Store and load *)

Lemma bind_ok_inv {A B} (m : M A) (k : A -> M B) s b s' :
  (let* x := m in k x) s = (Ok b, s') ->
  exists a s1, m s = (Ok a, s1) /\ k a s1 = (Ok b, s').
Proof.
  unfold bind. destruct (m s) as [[a|e] s1]; [|discriminate]. eauto.
Qed.

Lemma drop_header (pre payload : bytes) :
  NUL ∉ pre ->
  drop (Z.to_nat (IndexByte (pre ++ NUL :: payload) NUL + 1)) (pre ++ NUL :: payload)
  = payload.
Proof.
  intros Hpre. rewrite (IndexByte_first pre NUL payload Hpre). unfold len.
  replace (Z.to_nat (Z.of_nat (length pre) + 1)) with (length pre + 1)%nat by lia.
  rewrite drop_app_add'; reflexivity.
Qed.

Lemma blob_header_no_NUL n : NUL ∉ (lit "blob " ++ fmt_d n).
Proof.
  apply not_elem_of_app. split; [by_compute|].
  apply (plain_not_in NUL); [apply NUL_not_plain|apply fmt_d_plain].
Qed.

Lemma hex_digest_len m : (len (fmt_x (SHA1.Sum m)) <? 2) = false.
Proof. unfold len. rewrite hex_digest_length. reflexivity. Qed.

Section RoundTrip.

Variable compress : bytes -> bytes.
Variable zlib_read : bytes -> zlib_result.

(** What [compress/zlib] guarantees: reading what was written gives
    the bytes back, without error. *)
Hypothesis zlib_round_trip : forall b, zlib_read (compress b) = ZReadAll b false.

(** [cat-file] on a store that holds the blob of [C] under its digest. *)
Lemma cat_file_data_blob C s :
  files s !! obj_path (fmt_x (SHA1.Sum (blob_object C)))
  = Some (compress (blob_object C)) ->
  cat_file_data zlib_read (fmt_x (SHA1.Sum (blob_object C))) s = Done C.
Proof.
  intros Hfile. unfold cat_file_data, Open.
  rewrite hex_digest_len, Hfile, zlib_round_trip. f_equal.
  unfold blob_object.
  replace (lit "blob " ++ fmt_d (len C) ++ [NUL] ++ C)
    with ((lit "blob " ++ fmt_d (len C)) ++ NUL :: C)
    by (rewrite <- app_assoc; reflexivity).
  apply drop_header, blob_header_no_NUL.
Qed.

(** C7.  For every content [C] (a file of any kind whose read gives
    [C]): when the store can take the object, [hash-object] succeeds
    and prints the digest; and whenever [hash-object] succeeds,
    [cat-file] on the printed digest loads exactly [C] and prints it,
    followed by the line end of its [Printf]. *)
Theorem blob_round_trip (k : kind) (C : bytes) (s : fs) :
  let sha := fmt_x (SHA1.Sum (blob_object C)) in
  (can_put s sha = true ->
   exists s', hash_object compress (NonDir k (Some C)) s = (Done (sha ++ [LF]), s'))
  /\ (forall out s',
        hash_object compress (NonDir k (Some C)) s = (Done out, s') ->
        out = sha ++ [LF]
        /\ cat_file_data zlib_read sha s' = Done C
        /\ cat_file zlib_read sha s' = Done (C ++ [LF])).
Proof.
  intros sha. unfold hash_object. cbn [ReadFile]. fold sha. split.
  - intros Hcan.
    destruct (put_ok sha (compress (blob_object C)) s Hcan) as [s' ->]. eauto.
  - intros out s' H.
    destruct (put sha (compress (blob_object C)) s) as [[[]|e] s1] eqn:E.
    + injection H as <- <-. apply put_ok_inv in E as [E _].
      assert (cat_file_data zlib_read sha s1 = Done C) as Hcat.
      { apply cat_file_data_blob. rewrite E. apply lookup_insert_eq. }
      split; [reflexivity|]. split; [exact Hcat|].
      unfold cat_file. rewrite Hcat. reflexivity.
    + destruct e; discriminate.
Qed.

End RoundTrip.

(** The theorem of C7 on [binary_content] and the store left by [init]. *)
Lemma blob_round_trip_witness :
  (forall b, stored_read (stored b) = ZReadAll b false)
  /\ (let sha := fmt_x (SHA1.Sum (blob_object binary_content)) in
      (can_put fs_init sha = true ->
       exists s', hash_object stored (NonDir Regular (Some binary_content)) fs_init
                  = (Done (sha ++ [LF]), s'))
      /\ (forall out s',
            hash_object stored (NonDir Regular (Some binary_content)) fs_init
            = (Done out, s') ->
            out = sha ++ [LF]
            /\ cat_file_data stored_read sha s' = Done binary_content
            /\ cat_file stored_read sha s' = Done (binary_content ++ [LF]))).
Proof.
  assert (forall b, stored_read (stored b) = ZReadAll b false) as H by reflexivity.
  exact (conj H (blob_round_trip stored stored_read H Regular binary_content fs_init)).
Defined.

(** On the store left by [init] the precondition holds, and the round
    trip runs. *)
Example blob_round_trip_runs :
  can_put fs_init (fmt_x (SHA1.Sum (blob_object binary_content))) = true
  /\ cat_file_data stored_read (fmt_x (SHA1.Sum (blob_object binary_content)))
       (snd (hash_object stored (NonDir Regular (Some binary_content)) fs_init))
     = Done binary_content.
Proof. split; vm_compute; reflexivity. Qed.

(** ** The walk of [hash_dir] *)

Section Walk.

Variable compress : bytes -> bytes.

Lemma hash_dir_Dir files :
  hash_dir compress (Dir files)
  = (let* entries := hash_entries compress (hash_dir compress) files [] in
     encode_tree compress entries).
Proof. reflexivity. Qed.

Lemma hash_entries_skip rec file files entries :
  hash_entries compress rec ((lit ".git", file) :: files) entries
  = hash_entries compress rec files entries.
Proof. cbn [hash_entries]. rewrite decide_True by reflexivity. reflexivity. Qed.

Lemma hash_entries_dir rec name file files entries :
  name <> lit ".git" -> IsDir file = true ->
  hash_entries compress rec ((name, file) :: files) entries
  = (let* treeSha := rec file in
     hash_entries compress rec files (entries ++ [format_entry mode_dir name treeSha])).
Proof.
  intros Hn Hd. cbn [hash_entries]. rewrite decide_False by exact Hn.
  rewrite Hd. reflexivity.
Qed.

Lemma hash_entries_file rec name file files entries :
  name <> lit ".git" -> IsDir file = false ->
  hash_entries compress rec ((name, file) :: files) entries
  = (let* fileSha := hash_file compress file in
     hash_entries compress rec files (entries ++ [format_entry mode_file name fileSha])).
Proof.
  intros Hn Hd. cbn [hash_entries]. rewrite decide_False by exact Hn.
  rewrite Hd. reflexivity.
Qed.

Lemma hash_file_inv k c s d s' :
  hash_file compress (NonDir k (Some c)) s = (Ok d, s') ->
  d = SHA1.Sum (blob_object c)
  /\ files s' = <[obj_path (fmt_x (SHA1.Sum (blob_object c))) := compress (blob_object c)]> (files s).
Proof.
  unfold hash_file. cbn [ReadFile]. rewrite run_put_ret.
  destruct (put _ _ s) as [[[]|e] s1] eqn:E; [|discriminate].
  intros [= <- <-]. apply put_ok_inv in E as [E _]. auto.
Qed.

Lemma encode_tree_inv entries s d s' :
  encode_tree compress entries s = (Ok d, s') ->
  d = SHA1.Sum (tree_object entries)
  /\ files s' = <[obj_path (fmt_x (SHA1.Sum (tree_object entries))) := compress (tree_object entries)]> (files s).
Proof.
  unfold encode_tree. rewrite run_put_ret.
  destruct (put _ _ s) as [[[]|e] s1] eqn:E; [|discriminate].
  intros [= <- <-]. apply put_ok_inv in E as [E _]. auto.
Qed.

Lemma hash_entries_app rec l1 l2 acc s :
  hash_entries compress rec (l1 ++ l2) acc s
  = (let* acc' := hash_entries compress rec l1 acc in
     hash_entries compress rec l2 acc') s.
Proof.
  revert acc s. induction l1 as [|[name file] l1 IH]; intros acc s.
  - reflexivity.
  - cbn [app hash_entries]. destruct (decide (name = lit ".git")); [apply IH|].
    destruct (IsDir file); unfold bind.
    + destruct (rec file s) as [[sha|e] s1]; [|reflexivity]. rewrite IH. reflexivity.
    + destruct (hash_file compress file s) as [[sha|e] s1]; [|reflexivity].
      rewrite IH. reflexivity.
Qed.

(** The loop only adds entries to those it has. *)
Lemma hash_entries_appends rec l acc s es s' :
  hash_entries compress rec l acc s = (Ok es, s') -> exists new, es = acc ++ new.
Proof.
  revert acc s. induction l as [|[name file] l IH]; intros acc s; cbn [hash_entries].
  - intros [= <- <-]. exists []. rewrite app_nil_r. reflexivity.
  - destruct (decide (name = lit ".git")); [apply IH|].
    destruct (IsDir file); intros H; apply bind_ok_inv in H as (sha & s1 & _ & H);
      apply IH in H as [new ->]; rewrite <- app_assoc; eauto.
Qed.

(** The kind of an entry that is not a directory plays no part. *)
Lemma hash_dir_ignores_kind pre post name k k' r s :
  hash_dir compress (Dir (pre ++ (name, NonDir k r) :: post)) s
  = hash_dir compress (Dir (pre ++ (name, NonDir k' r) :: post)) s.
Proof.
  rewrite !hash_dir_Dir. unfold bind.
  rewrite !hash_entries_app. reflexivity.
Qed.

(** C10.  An entry of a directory that is not a subdirectory, a
    regular file or a link or anything else: [hash_dir] does with it
    what it does with a regular file that reads the same, in every
    store and whatever the read gives.  When the read gives the bytes
    [c] and [hash_dir] succeeds, the run went through the entries
    before it, stored the blob of [c] under its digest, recorded the
    entry with mode [100644], the name and that digest, went through
    the entries after it, and built the tree from the entries
    recorded. *)
Theorem hash_dir_non_directory_entry
    (pre post : list (bytes * node)) (name : bytes) (k : kind) (c : bytes)
    (s : fs) (d : bytes) :
  name <> lit ".git" ->
  fst (hash_dir compress (Dir (pre ++ (name, NonDir k (Some c)) :: post)) s) = Ok d ->
  let blob := SHA1.Sum (blob_object c) in
  let entry := format_entry mode_file name blob in
  (forall r s0,
      hash_dir compress (Dir (pre ++ (name, NonDir k r) :: post)) s0
      = hash_dir compress (Dir (pre ++ (name, NonDir Regular r) :: post)) s0)
  /\ fmt_o mode_file = lit "100644"
  /\ exists before s1 s2 entries s3,
      hash_entries compress (hash_dir compress) pre [] s = (Ok before, s1)
      /\ put (fmt_x blob) (compress (blob_object c)) s1 = (Ok tt, s2)
      /\ files s2 !! obj_path (fmt_x blob) = Some (compress (blob_object c))
      /\ hash_entries compress (hash_dir compress) post (before ++ [entry]) s2
         = (Ok entries, s3)
      /\ entry ∈ entries
      /\ d = SHA1.Sum (tree_object entries).
Proof.
  intros Hname Hrun blob entry.
  split; [intros r s0; apply hash_dir_ignores_kind|]. split; [vm_compute; reflexivity|].
  destruct (hash_dir compress _ s) as [r s'] eqn:H. cbn [fst] in Hrun. subst r.
  rewrite hash_dir_Dir in H.
  apply bind_ok_inv in H as (entries & s3 & Hent & Henc).
  rewrite hash_entries_app in Hent.
  apply bind_ok_inv in Hent as (before & s1 & Hpre & Hent).
  rewrite hash_entries_file in Hent; [|exact Hname|reflexivity].
  apply bind_ok_inv in Hent as (fileSha & s2 & Hfile & Hpost).
  unfold hash_file in Hfile. cbn [ReadFile] in Hfile. rewrite run_put_ret in Hfile.
  fold blob in Hfile.
  destruct (put (fmt_x blob) (compress (blob_object c)) s1) as [[[]|e] s2'] eqn:Hput;
    [|discriminate].
  injection Hfile as <- <-.
  exists before, s1, s2', entries, s3.
  split; [exact Hpre|]. split; [exact Hput|]. split.
  { apply put_ok_inv in Hput as [-> _]. apply lookup_insert_eq. }
  split; [exact Hpost|]. split.
  - apply hash_entries_appends in Hpost as [new ->].
    apply elem_of_app. left. apply elem_of_app. right. left.
  - apply encode_tree_inv in Henc as [-> _]. reflexivity.
Qed.


End Walk.


(** ** A file and an empty directory *)

Section Scenario.

Variable compress : bytes -> bytes.
Variable zlib_read : bytes -> zlib_result.
Hypothesis zlib_round_trip : forall b, zlib_read (compress b) = ZReadAll b false.

(** An empty directory gives the tree with no entries. *)
Lemma hash_dir_empty_ok s0 :
  can_put s0 (fmt_x (SHA1.Sum (tree_object []))) = true ->
  exists s1, hash_dir compress (Dir []) s0 = (Ok (SHA1.Sum (tree_object [])), s1).
Proof.
  intros Hcan.
  rewrite hash_dir_Dir. cbn [hash_entries]. unfold bind at 1, ret at 1.
  unfold encode_tree. rewrite run_put_ret.
  destruct (put_ok _ (compress (tree_object [])) s0 Hcan) as [s1 Hput].
  rewrite Hput. exists s1. reflexivity.
Qed.

(** [ls-tree] on a store that holds an object under its digest parses
    that object. *)
Lemma ls_tree_stored obj s :
  files s !! obj_path (fmt_x (SHA1.Sum obj)) = Some (compress obj) ->
  ls_tree zlib_read (fmt_x (SHA1.Sum obj)) s = ls_tree_parse obj.
Proof.
  intros Hfile. unfold ls_tree, Open.
  rewrite hex_digest_len, Hfile, zlib_round_trip. reflexivity.
Qed.

(** C8.  For the directory with the file [a.txt] of content [x] and
    the empty directory [b]: whenever [hash_dir] succeeds, the tree it
    returns and stores has exactly the two entries [a.txt], with the
    mode of a regular file, and then [b], with the mode of a
    directory; the digest recorded for [b] is that of the tree with no
    entries, which is in the store and lists nothing.  An empty
    directory is no error: [hash_dir] on it succeeds whenever the
    store can take the object. *)
Theorem tree_of_file_and_empty_dir (s : fs) (d : bytes) :
  fst (hash_dir compress work_tree s) = Ok d ->
  let s' := snd (hash_dir compress work_tree s) in
  d = SHA1.Sum work_tree_object
  /\ files s' !! obj_path (fmt_x d) = Some (compress work_tree_object)
  /\ ls_tree zlib_read (fmt_x d) s' = Some (Done [lit "a.txt"; lit "b"])
  /\ tree_object [] = lit "tree 0" ++ [NUL]
  /\ files s' !! obj_path (fmt_x empty_tree) = Some (compress (tree_object []))
  /\ ls_tree zlib_read (fmt_x empty_tree) s' = Some (Done [])
  /\ (forall s0, can_put s0 (fmt_x empty_tree) = true ->
        exists s1, hash_dir compress (Dir []) s0 = (Ok empty_tree, s1)).
Proof.
  destruct (hash_dir compress work_tree s) as [r s'] eqn:H.
  cbn [fst snd]. intros ->. unfold work_tree in H. rewrite hash_dir_Dir in H.
  apply bind_ok_inv in H as (entries & s3 & Hent & Henc).
  rewrite hash_entries_file in Hent; [|by_compute|reflexivity].
  apply bind_ok_inv in Hent as (fileSha & s1 & Hfile & Hent).
  apply hash_file_inv in Hfile as [-> Hs1].
  rewrite hash_entries_dir in Hent; [|by_compute|reflexivity].
  apply bind_ok_inv in Hent as (treeSha & s2 & Htree & Hent).
  rewrite hash_dir_Dir in Htree.
  apply bind_ok_inv in Htree as (none & s1' & Hnone & Htree).
  cbn [hash_entries] in Hnone, Hent. unfold ret in Hnone, Hent.
  injection Hnone as <- <-. injection Hent as <- <-.
  apply encode_tree_inv in Htree as [-> Hs2].
  apply encode_tree_inv in Henc as [-> Hs'].
  unfold empty_tree.
  assert (tree_object
            [format_entry mode_file (lit "a.txt") (SHA1.Sum (blob_object (lit "x")));
             format_entry mode_dir (lit "b") (SHA1.Sum (tree_object []))]
          = work_tree_object) as Hobj by (vm_compute; reflexivity).
  rewrite Hobj in Hs' |- *.
  assert (obj_path (fmt_x (SHA1.Sum work_tree_object))
          <> obj_path (fmt_x (SHA1.Sum (tree_object []))))
    as Hne by by_compute.
  assert (files s' !! obj_path (fmt_x (SHA1.Sum work_tree_object))
          = Some (compress work_tree_object)) as Hroot.
  { rewrite Hs'. apply lookup_insert_eq. }
  assert (files s' !! obj_path (fmt_x (SHA1.Sum (tree_object [])))
          = Some (compress (tree_object []))) as Hempty.
  { rewrite Hs', lookup_insert_ne by exact Hne. rewrite Hs2. apply lookup_insert_eq. }
  split; [reflexivity|]. split; [exact Hroot|]. split.
  { rewrite (ls_tree_stored _ _ Hroot). vm_compute. reflexivity. }
  split; [vm_compute; reflexivity|]. split; [exact Hempty|]. split.
  { rewrite (ls_tree_stored _ _ Hempty). vm_compute. reflexivity. }
  exact hash_dir_empty_ok.
Qed.

End Scenario.

(** The theorem of C8 on the store left by [init]. *)
Lemma tree_of_file_and_empty_dir_witness :
  (forall b, stored_read (stored b) = ZReadAll b false)
  /\ fst (hash_dir stored work_tree fs_init) = Ok (SHA1.Sum work_tree_object)
  /\ (let d := SHA1.Sum work_tree_object in
      let s' := snd (hash_dir stored work_tree fs_init) in
      d = SHA1.Sum work_tree_object
      /\ files s' !! obj_path (fmt_x d) = Some (stored work_tree_object)
      /\ ls_tree stored_read (fmt_x d) s' = Some (Done [lit "a.txt"; lit "b"])
      /\ tree_object [] = lit "tree 0" ++ [NUL]
      /\ files s' !! obj_path (fmt_x empty_tree) = Some (stored (tree_object []))
      /\ ls_tree stored_read (fmt_x empty_tree) s' = Some (Done [])
      /\ (forall s0, can_put s0 (fmt_x empty_tree) = true ->
            exists s1, hash_dir stored (Dir []) s0 = (Ok empty_tree, s1))).
Proof.
  assert (forall b, stored_read (stored b) = ZReadAll b false) as H by reflexivity.
  assert (fst (hash_dir stored work_tree fs_init) = Ok (SHA1.Sum work_tree_object))
    as Hrun by (vm_compute; reflexivity).
  exact (conj H (conj Hrun
           (tree_of_file_and_empty_dir stored stored_read H fs_init _ Hrun))).
Defined.

(** ** The embedding of SHA-1 and of the formats on known values *)

Example sha1_abc :
  fmt_x (SHA1.Sum (lit "abc")) = lit "a9993e364706816aba3e25717850c26c9cd0d89d".
Proof. vm_compute. reflexivity. Qed.

Example sha1_empty :
  fmt_x (SHA1.Sum []) = lit "da39a3ee5e6b4b0d3255bfef95601890afd80709".
Proof. vm_compute. reflexivity. Qed.

Example sha1_two_blocks :
  fmt_x (SHA1.Sum (lit "abcdbcdecdefdefgefghfghighijhijkijkljklmklmnlmnomnopnopq"))
  = lit "84983e441c3bd26ebaae4aa1f95129e5e54670f1".
Proof. vm_compute. reflexivity. Qed.

Example empty_tree_digest :
  fmt_x empty_tree = lit "4b825dc642cb6eb9a060e54bf8d69288fbee4904".
Proof. vm_compute. reflexivity. Qed.

Example blob_x_digest :
  fmt_x blob_x = lit "c1b0730e0133447badcfd47fd144e254807b06e1".
Proof. vm_compute. reflexivity. Qed.

Example work_tree_digest :
  fmt_x (SHA1.Sum work_tree_object) = lit "3f1eb7f3481b40d298e79291a8d71ab98fbecfa0".
Proof. vm_compute. reflexivity. Qed.

Example fmt_d_values :
  fmt_d 1234 = lit "1234" /\ fmt_d 0 = lit "0" /\ fmt_d (-7) = lit "-7".
Proof. vm_compute. auto. Qed.

Example fmt_o_values :
  fmt_o mode_file = lit "100644" /\ fmt_o mode_dir = lit "40000".
Proof. vm_compute. auto. Qed.

Example fmt_zone_values :
  fmt_zone 0 = lit "+0000" /\ fmt_zone 19800 = lit "+0530"
  /\ fmt_zone (-12600) = lit "-0330".
Proof. vm_compute. auto. Qed.

(** The theorem of C10 on a symbolic link between a directory and a
    regular file. *)
Lemma hash_dir_non_directory_entry_witness :
  lit "link" <> lit ".git"
  /\ fst (hash_dir stored
            (Dir (listing_before ++ (lit "link", NonDir Symlink (Some (lit "x")))
                  :: listing_after)) fs_init)
     = Ok (SHA1.Sum (tree_object
             [format_entry mode_dir (lit "b") empty_tree;
              format_entry mode_file (lit "link") blob_x;
              format_entry mode_file (lit "z.txt") blob_x]))
  /\ (let blob := SHA1.Sum (blob_object (lit "x")) in
      let entry := format_entry mode_file (lit "link") blob in
      (forall r s0,
          hash_dir stored
            (Dir (listing_before ++ (lit "link", NonDir Symlink r) :: listing_after)) s0
          = hash_dir stored
              (Dir (listing_before ++ (lit "link", NonDir Regular r) :: listing_after)) s0)
      /\ fmt_o mode_file = lit "100644"
      /\ exists before s1 s2 entries s3,
          hash_entries stored (hash_dir stored) listing_before [] fs_init
          = (Ok before, s1)
          /\ put (fmt_x blob) (stored (blob_object (lit "x"))) s1 = (Ok tt, s2)
          /\ files s2 !! obj_path (fmt_x blob) = Some (stored (blob_object (lit "x")))
          /\ hash_entries stored (hash_dir stored) listing_after (before ++ [entry]) s2
             = (Ok entries, s3)
          /\ entry ∈ entries
          /\ SHA1.Sum (tree_object
               [format_entry mode_dir (lit "b") empty_tree;
                format_entry mode_file (lit "link") blob_x;
                format_entry mode_file (lit "z.txt") blob_x])
             = SHA1.Sum (tree_object entries)).
Proof.
  assert (lit "link" <> lit ".git") as H1 by by_compute.
  assert (fst (hash_dir stored
                 (Dir (listing_before ++ (lit "link", NonDir Symlink (Some (lit "x")))
                       :: listing_after)) fs_init)
          = Ok (SHA1.Sum (tree_object
                  [format_entry mode_dir (lit "b") empty_tree;
                   format_entry mode_file (lit "link") blob_x;
                   format_entry mode_file (lit "z.txt") blob_x]))) as H2
    by (vm_compute; reflexivity).
  exact (conj H1 (conj H2
           (hash_dir_non_directory_entry stored listing_before listing_after
              (lit "link") Symlink (lit "x") fs_init _ H1 H2))).
Defined.

(** * Further properties of the code *)

(** ** Object paths *)

Lemma byte_val_digit_char d :
  0 <= d < 16 -> byte_val (digit_char d) = if d <? 10 then 48 + d else 87 + d.
Proof.
  intros Hd. unfold digit_char.
  destruct (Z.ltb_spec d 10); rewrite byte_val_of_Z, Z.mod_small; lia.
Qed.

Lemma digit_char_inj d1 d2 :
  0 <= d1 < 16 -> 0 <= d2 < 16 -> digit_char d1 = digit_char d2 -> d1 = d2.
Proof.
  intros H1 H2 E. apply (f_equal byte_val) in E.
  rewrite !byte_val_digit_char in E by assumption.
  destruct (Z.ltb_spec d1 10), (Z.ltb_spec d2 10); lia.
Qed.

Lemma fmt_x_inj s t : fmt_x s = fmt_x t -> s = t.
Proof.
  unfold fmt_x. revert t. induction s as [|a s IH]; intros [|b t]; simpl; try discriminate.
  - reflexivity.
  - intros [= Hhi Hlo E]. f_equal; [|apply IH, E].
    pose proof (byte_val_range a). pose proof (byte_val_range b).
    apply byte_val_inj.
    apply digit_char_inj in Hhi;
      [|split; [apply Z.div_pos; lia|apply Z.div_lt_upper_bound; lia]..].
    apply digit_char_inj in Hlo; [|apply Z.mod_pos_bound; lia..].
    rewrite (Z.div_mod (byte_val a) 16), (Z.div_mod (byte_val b) 16) by lia. lia.
Qed.

Lemma obj_path_inj sha sha' : obj_path sha = obj_path sha' -> sha = sha'.
Proof.
  unfold obj_path. intros [= Ht Hd].
  rewrite <- (take_drop 2 sha), <- (take_drop 2 sha'). congruence.
Qed.

(** X1.  The file of an object is named by its digest alone: two
    digests have the same path in the store exactly when they are the
    same digest. *)
Theorem object_path_names_one_digest (d1 d2 : bytes) :
  obj_path (fmt_x d1) = obj_path (fmt_x d2) <-> d1 = d2.
Proof.
  split; [|intros ->; reflexivity].
  intros E. apply fmt_x_inj, obj_path_inj, E.
Qed.

(** X2.  A write to the store touches one entry: whether it succeeds
    or fails, [put] leaves the file of every other digest, and every
    file that is not the object's, as it was. *)
Theorem put_keeps_other_entries (sha data : bytes) (s : fs) (p : path) :
  p <> obj_path sha ->
  files (snd (put sha data s)) !! p = files s !! p.
Proof.
  intros Hp. destruct (put sha data s) as [[[]|e] s'] eqn:E; cbn [snd].
  - apply put_ok_inv in E as [-> _]. apply lookup_insert_ne. congruence.
  - apply put_err_inv in E as [-> _]. reflexivity.
Qed.

(** The theorem of X2 on the entry of another digest. *)
Lemma put_keeps_other_entries_witness :
  obj_path empty_tree_sha <> obj_path digest_x
  /\ files (snd (put digest_x (lit "new") store_old)) !! obj_path empty_tree_sha
     = files store_old !! obj_path empty_tree_sha.
Proof.
  assert (obj_path empty_tree_sha <> obj_path digest_x) as H by by_compute.
  exact (conj H (put_keeps_other_entries digest_x (lit "new") store_old _ H)).
Defined.

(** ** [init] *)

Lemma WriteFile_keeps p data s q :
  q <> p -> files (snd (WriteFile p data s)) !! q = files s !! q.
Proof.
  intros Hq. destruct (WriteFile p data s) as [r s'] eqn:E. cbn [snd].
  apply WriteFile_inv in E as [(_ & -> & _)|[_ ->]]; [|reflexivity].
  apply lookup_insert_ne. congruence.
Qed.

Lemma init_files s p :
  p <> [lit ".git"; lit "HEAD"] -> files (init s) !! p = files s !! p.
Proof.
  intros Hp. unfold init. rewrite WriteFile_keeps by exact Hp.
  unfold MkdirAll.
  repeat match goal with
         | |- context [files (snd (mkdir_chain ?ps ?s0))] =>
             rewrite (proj1 (mkdir_chain_keeps ps s0))
         end.
  reflexivity.
Qed.

(** X3.  [init] never touches an object: whatever the store holds
    under a digest before [init] it holds after, and the only file
    [init] may change is [.git/HEAD]. *)
Theorem init_keeps_objects (s : fs) (p : path) :
  p <> [lit ".git"; lit "HEAD"] ->
  files (init s) !! p = files s !! p.
Proof. apply init_files. Qed.

(** The theorem of X3 on the entry of [digest_x]. *)
Lemma init_keeps_objects_witness :
  obj_path digest_x <> [lit ".git"; lit "HEAD"]
  /\ files (init store_old) !! obj_path digest_x = files store_old !! obj_path digest_x.
Proof.
  assert (obj_path digest_x <> [lit ".git"; lit "HEAD"]) as H by by_compute.
  exact (conj H (init_keeps_objects store_old _ H)).
Defined.

(** ** [hash-object] and [cat-file] at the edges *)

Section Edges.

Variable compress : bytes -> bytes.
Variable zlib_read : bytes -> zlib_result.



Hypothesis zlib_round_trip : forall b, zlib_read (compress b) = ZReadAll b false.

(** [cat-file] cuts the object at its first NUL byte, whatever its
    kind. *)
Lemma cat_file_data_object sha hdr payload s :
  (2 <= length sha)%nat ->
  NUL ∉ hdr ->
  files s !! obj_path sha = Some (compress (hdr ++ NUL :: payload)) ->
  cat_file_data zlib_read sha s = Done payload.
Proof.
  intros Hlen Hhdr Hfile. unfold cat_file_data, Open, len.
  destruct (Z.ltb_spec (Z.of_nat (length sha)) 2); [lia|].
  rewrite Hfile, zlib_round_trip. f_equal. apply drop_header, Hhdr.
Qed.

Lemma commit_header_no_NUL n : NUL ∉ (lit "commit " ++ fmt_d n).
Proof.
  apply not_elem_of_app. split; [by_compute|].
  apply (plain_not_in NUL); [apply NUL_not_plain|apply fmt_d_plain].
Qed.

(** X6.  A commit can be read back: after a successful [commit_tree],
    [cat-file] on the digest it returned loads the payload of the
    commit, for every tree, parent and message. *)
Theorem commit_round_trip (ts off : Z) (T P msg : bytes) (s : fs) (d : bytes) :
  fst (commit_tree compress ts off T P msg s) = Ok d ->
  cat_file_data zlib_read (fmt_x d) (snd (commit_tree compress ts off T P msg s))
  = Done (commit_payload ts off T P msg).
Proof.
  pose proof (commit_tree_digest compress ts off T P msg s) as H.
  destruct (commit_tree compress ts off T P msg s) as [[d'|e] s'].
  2: { discriminate. }
  cbn [fst snd]. intros [= <-]. destruct H as [-> Hfile].
  apply (cat_file_data_object _ (lit "commit " ++ fmt_d (len (commit_payload ts off T P msg)))).
  - rewrite hex_digest_length. lia.
  - apply commit_header_no_NUL.
  - rewrite Hfile. unfold commit_object. rewrite <- app_assoc. reflexivity.
Qed.

End Edges.



(** The theorem of X6 on the first commit of the empty tree. *)
Lemma commit_round_trip_witness :
  (forall b, stored_read (stored b) = ZReadAll b false)
  /\ fst (commit_tree stored 0 0 empty_tree_sha [] (lit "init") fs_init)
     = Ok (SHA1.Sum init_payload)
  /\ cat_file_data stored_read (fmt_x (SHA1.Sum init_payload))
       (snd (commit_tree stored 0 0 empty_tree_sha [] (lit "init") fs_init))
     = Done (commit_payload 0 0 empty_tree_sha [] (lit "init")).
Proof.
  assert (forall b, stored_read (stored b) = ZReadAll b false) as H by reflexivity.
  assert (fst (commit_tree stored 0 0 empty_tree_sha [] (lit "init") fs_init)
          = Ok (SHA1.Sum init_payload)) as Hrun by (vm_compute; reflexivity).
  exact (conj H (conj Hrun
    (commit_round_trip stored stored_read H 0 0 empty_tree_sha [] (lit "init") fs_init _ Hrun))).
Defined.

(** ** [commit_tree] and the arguments of [commit-tree] *)

(** X7.  [commit_tree] looks nothing up: for every tree and parent
    string, naming an object of the store or not, it succeeds whenever
    the store can take the commit, and the one entry it changes is the
    commit's. *)
Theorem commit_tree_checks_nothing
    (compress : bytes -> bytes) (ts off : Z) (T P msg : bytes) (s : fs) :
  let commit := commit_payload ts off T P msg in
  can_put s (fmt_x (SHA1.Sum commit)) = true ->
  exists s',
    commit_tree compress ts off T P msg s = (Ok (SHA1.Sum commit), s')
    /\ files s' = <[obj_path (fmt_x (SHA1.Sum commit)) := compress (commit_object commit)]>
                    (files s).
Proof.
  intros commit Hcan. unfold commit_tree. fold commit. rewrite run_put_ret.
  destruct (put_ok _ (compress (commit_object commit)) s Hcan) as [s' Hput].
  rewrite Hput. exists s'. split; [reflexivity|].
  apply put_ok_inv in Hput as [-> _]. reflexivity.
Qed.

(** The theorem of X7 on a tree and a parent the store does not have. *)
Lemma commit_tree_checks_nothing_witness :
  files fs_init !! obj_path (lit "0123456789012345678901234567890123456789") = None
  /\ can_put fs_init
       (fmt_x (SHA1.Sum (commit_payload 0 0 (lit "0123456789012345678901234567890123456789")
                           (lit "no such parent") (lit "m")))) = true
  /\ (let commit := commit_payload 0 0 (lit "0123456789012345678901234567890123456789")
                      (lit "no such parent") (lit "m") in
      exists s',
        commit_tree stored 0 0 (lit "0123456789012345678901234567890123456789")
          (lit "no such parent") (lit "m") fs_init = (Ok (SHA1.Sum commit), s')
        /\ files s' = <[obj_path (fmt_x (SHA1.Sum commit)) := stored (commit_object commit)]>
                        (files fs_init)).
Proof.
  assert (files fs_init !! obj_path (lit "0123456789012345678901234567890123456789") = None)
    as H0 by (vm_compute; reflexivity).
  assert (can_put fs_init
            (fmt_x (SHA1.Sum (commit_payload 0 0 (lit "0123456789012345678901234567890123456789")
                                (lit "no such parent") (lit "m")))) = true)
    as H by (vm_compute; reflexivity).
  exact (conj H0 (conj H (commit_tree_checks_nothing stored 0 0 _ _ _ fs_init H))).
Defined.

Lemma arg_take args n i : (i < n)%nat -> arg (take n args) i = arg args i.
Proof.
  unfold arg. revert n i. induction args as [|a args IH]; intros n i Hi.
  - rewrite take_nil. reflexivity.
  - destruct n as [|n]; [lia|]. destruct i as [|i]; [reflexivity|].
    simpl. apply IH. lia.
Qed.

(** X8.  [commit-tree] reads its flags only when it has exactly five
    or seven arguments.  With any other number of at least three, for
    instance a [-m] without its message, the flags are dropped without
    a word: the commit made is the one of the tree alone, with no
    parent and no message. *)
Theorem commit_tree_flags_dropped (args : list bytes) :
  (3 <= length args)%nat -> length args <> 5%nat -> length args <> 7%nat ->
  commit_tree_args args = Done (arg args 2, [], [])
  /\ commit_tree_args args = commit_tree_args (take 3 args).
Proof.
  intros H3 H5 H7.
  assert (commit_tree_args args = Done (arg args 2, [], [])) as E.
  { unfold commit_tree_args.
    destruct (Nat.ltb_spec (length args) 3); [lia|].
    destruct (Nat.eqb_spec (length args) 5); [lia|].
    destruct (Nat.eqb_spec (length args) 7); [lia|]. reflexivity. }
  split; [exact E|]. rewrite E. unfold commit_tree_args.
  rewrite length_take, Nat.min_l by lia. simpl. rewrite arg_take by lia. reflexivity.
Qed.

(** The theorem of X8 on [commit-tree T -p P -m], the message missing. *)
Lemma commit_tree_flags_dropped_witness :
  (3 <= length [lit "mygit"; lit "commit-tree"; empty_tree_sha; lit "-p"; digest_x; lit "-m"])%nat
  /\ length [lit "mygit"; lit "commit-tree"; empty_tree_sha; lit "-p"; digest_x; lit "-m"]
     <> 5%nat
  /\ length [lit "mygit"; lit "commit-tree"; empty_tree_sha; lit "-p"; digest_x; lit "-m"]
     <> 7%nat
  /\ (commit_tree_args
        [lit "mygit"; lit "commit-tree"; empty_tree_sha; lit "-p"; digest_x; lit "-m"]
      = Done (arg [lit "mygit"; lit "commit-tree"; empty_tree_sha; lit "-p"; digest_x; lit "-m"] 2,
              [], [])
      /\ commit_tree_args
           [lit "mygit"; lit "commit-tree"; empty_tree_sha; lit "-p"; digest_x; lit "-m"]
         = commit_tree_args
             (take 3 [lit "mygit"; lit "commit-tree"; empty_tree_sha; lit "-p"; digest_x;
                      lit "-m"])).
Proof.
  assert (3 <= length [lit "mygit"; lit "commit-tree"; empty_tree_sha; lit "-p"; digest_x;
                       lit "-m"])%nat as H3 by (simpl; lia).
  assert (length [lit "mygit"; lit "commit-tree"; empty_tree_sha; lit "-p"; digest_x; lit "-m"]
          <> 5%nat) as H5 by (simpl; lia).
  assert (length [lit "mygit"; lit "commit-tree"; empty_tree_sha; lit "-p"; digest_x; lit "-m"]
          <> 7%nat) as H7 by (simpl; lia).
  exact (conj H3 (conj H5 (conj H7 (commit_tree_flags_dropped _ H3 H5 H7)))).
Defined.

(** X9.  With seven arguments [commit-tree] wants the parent first:
    the sixth argument, where [-m] should stand, is never read, the
    seventh is the message whatever stands before it, and a message
    given before the parent is refused with the usage line. *)
Theorem commit_tree_seven_arguments (args : list bytes) :
  length args = 7%nat ->
  (forall x, commit_tree_args (<[5%nat := x]> args) = commit_tree_args args)
  /\ (arg args 3 = lit "-p" ->
      commit_tree_args args = Done (arg args 2, arg args 4, arg args 6))
  /\ (arg args 3 <> lit "-p" -> commit_tree_args args = Exit1 usage_commit_tree).
Proof.
  intros H7.
  destruct args as [|a0 [|a1 [|a2 [|a3 [|a4 [|a5 [|a6 [|a7 args]]]]]]]]; try discriminate.
  unfold commit_tree_args, arg. simpl.
  split; [reflexivity|]. split.
  - intros ->. rewrite decide_True by reflexivity. reflexivity.
  - intros Hne. rewrite decide_False by exact Hne. reflexivity.
Qed.

(** The theorem of X9 on [commit-tree T -m msg -p P]. *)
Lemma commit_tree_seven_arguments_witness :
  length [lit "mygit"; lit "commit-tree"; empty_tree_sha; lit "-m"; lit "msg"; lit "-p";
          digest_x] = 7%nat
  /\ ((forall x,
         commit_tree_args
           (<[5%nat := x]> [lit "mygit"; lit "commit-tree"; empty_tree_sha; lit "-m";
                            lit "msg"; lit "-p"; digest_x])
         = commit_tree_args [lit "mygit"; lit "commit-tree"; empty_tree_sha; lit "-m";
                             lit "msg"; lit "-p"; digest_x])
      /\ (arg [lit "mygit"; lit "commit-tree"; empty_tree_sha; lit "-m"; lit "msg"; lit "-p";
               digest_x] 3 = lit "-p" ->
          commit_tree_args [lit "mygit"; lit "commit-tree"; empty_tree_sha; lit "-m";
                            lit "msg"; lit "-p"; digest_x]
          = Done (arg [lit "mygit"; lit "commit-tree"; empty_tree_sha; lit "-m"; lit "msg";
                       lit "-p"; digest_x] 2,
                  arg [lit "mygit"; lit "commit-tree"; empty_tree_sha; lit "-m"; lit "msg";
                       lit "-p"; digest_x] 4,
                  arg [lit "mygit"; lit "commit-tree"; empty_tree_sha; lit "-m"; lit "msg";
                       lit "-p"; digest_x] 6))
      /\ (arg [lit "mygit"; lit "commit-tree"; empty_tree_sha; lit "-m"; lit "msg"; lit "-p";
               digest_x] 3 <> lit "-p" ->
          commit_tree_args [lit "mygit"; lit "commit-tree"; empty_tree_sha; lit "-m";
                            lit "msg"; lit "-p"; digest_x]
          = Exit1 usage_commit_tree)).
Proof.
  assert (length [lit "mygit"; lit "commit-tree"; empty_tree_sha; lit "-m"; lit "msg";
                  lit "-p"; digest_x] = 7%nat) as H by reflexivity.
  exact (conj H (commit_tree_seven_arguments _ H)).
Defined.

(** ** [write-tree]: the search for [.git] *)

Lemma removelast_take {A} (l : list A) k :
  (k <= length l)%nat -> removelast (take k l) = take (k - 1) l.
Proof.
  revert k. induction l as [|a l IH]; intros k Hk.
  - rewrite !take_nil. reflexivity.
  - destruct k as [|k]; [reflexivity|]. simpl in Hk.
    destruct k as [|k]; [destruct l; reflexivity|].
    change (take (S (S k)) (a :: l)) with (a :: take (S k) l).
    replace (S (S k) - 1)%nat with (S (S k - 1)) by lia.
    change (take (S (S k - 1)) (a :: l)) with (a :: take (S k - 1) l).
    rewrite <- IH by lia.
    destruct l as [|b l]; [simpl in Hk; lia|]. reflexivity.
Qed.

Lemma find_git_dir_up fuel w s k n :
  (n <= k <= length (cwd w))%nat ->
  stat_git w s (take n (cwd w)) = true ->
  (forall m, (n < m <= length (cwd w))%nat -> stat_git w s (take m (cwd w)) = false) ->
  (k - n < fuel)%nat ->
  find_git_dir fuel w s (take k (cwd w)) = Some (take n (cwd w)).
Proof.
  intros Hk Hn Habove. revert k Hk. induction fuel as [|fuel IH]; intros k Hk Hfuel; [lia|].
  simpl. destruct (decide (k = n)) as [->|Hne].
  - rewrite Hn. reflexivity.
  - rewrite Habove by lia. unfold path_Dir. rewrite removelast_take by lia.
    apply IH; lia.
Qed.

Lemma find_git_dir_never fuel w s k :
  (k <= length (cwd w))%nat ->
  (forall m, stat_git w s (take m (cwd w)) = false) ->
  find_git_dir fuel w s (take k (cwd w)) = None.
Proof.
  intros Hk Hno. revert k Hk. induction fuel as [|fuel IH]; intros k Hk; [reflexivity|].
  simpl. rewrite Hno. unfold path_Dir. rewrite removelast_take by lia.
  apply IH. lia.
Qed.

Section WriteTree.

Variable compress : bytes -> bytes.
Variable zlib_read : bytes -> zlib_result.

(** X10.  [write-tree] hashes the nearest directory, from the working
    directory upwards, that has an entry [.git]: when the [n] first
    components of the working directory make that directory, it is
    found after one pass per level, and the command is [hash_dir] on
    it, printing the digest in hexadecimal. *)
Theorem write_tree_hashes_nearest_repository (fuel n : nat) (w : world) (s : fs) :
  (n <= length (cwd w))%nat ->
  stat_git w s (take n (cwd w)) = true ->
  (forall m, (n < m <= length (cwd w))%nat -> stat_git w s (take m (cwd w)) = false) ->
  (length (cwd w) - n < fuel)%nat ->
  main compress zlib_read fuel w [lit "mygit"; lit "write-tree"] s
  = Some (match hash_dir compress (tree_at w (take n (cwd w))) s with
          | (Ok treeSha, s') => (Done (fmt_x treeSha ++ [LF]), s')
          | (Err _, s') => (Exit1 (lit "Error hashing tree"), s')
          end).
Proof.
  intros Hn Hgit Habove Hfuel.
  assert (find_git_dir fuel w s (cwd w) = Some (take n (cwd w))) as Hfind.
  { rewrite <- (firstn_all (cwd w)) at 1.
    apply find_git_dir_up; [lia|exact Hgit|exact Habove|lia]. }
  unfold main. cbn [length Nat.ltb Nat.leb arg nth].
  rewrite !decide_False by by_compute. rewrite decide_True by reflexivity.
  unfold write_tree. rewrite Hfind.
  destruct (hash_dir compress _ s) as [[d|e] s']; reflexivity.
Qed.

(** X11.  Outside a repository [write-tree] does not come back: when
    no directory from the working directory up to the root has an
    entry [.git], the search stays at the root, which is its own
    parent, and is still running after any number of passes. *)
Theorem write_tree_outside_repository_loops (w : world) (s : fs) :
  (forall m, stat_git w s (take m (cwd w)) = false) ->
  forall fuel, main compress zlib_read fuel w [lit "mygit"; lit "write-tree"] s = None.
Proof.
  intros Hno fuel.
  assert (find_git_dir fuel w s (cwd w) = None) as Hfind.
  { rewrite <- (firstn_all (cwd w)) at 1. apply find_git_dir_never; [lia|exact Hno]. }
  unfold main. cbn [length Nat.ltb Nat.leb arg nth].
  rewrite !decide_False by by_compute. rewrite decide_True by reflexivity.
  unfold write_tree. rewrite Hfind. reflexivity.
Qed.

End WriteTree.

(** The theorem of X10 on [write-tree] run in a subdirectory. *)
Lemma write_tree_hashes_nearest_repository_witness :
  (2 <= length (cwd world_in_subdirectory))%nat
  /\ stat_git world_in_subdirectory fs_empty (take 2 (cwd world_in_subdirectory)) = true
  /\ (forall m, (2 < m <= length (cwd world_in_subdirectory))%nat ->
        stat_git world_in_subdirectory fs_empty (take m (cwd world_in_subdirectory)) = false)
  /\ (length (cwd world_in_subdirectory) - 2 < 2)%nat
  /\ main stored stored_read 2 world_in_subdirectory [lit "mygit"; lit "write-tree"] fs_empty
     = Some (match hash_dir stored
                     (tree_at world_in_subdirectory (take 2 (cwd world_in_subdirectory)))
                     fs_empty with
             | (Ok treeSha, s') => (Done (fmt_x treeSha ++ [LF]), s')
             | (Err _, s') => (Exit1 (lit "Error hashing tree"), s')
             end).
Proof.
  assert (2 <= length (cwd world_in_subdirectory))%nat as H1 by (simpl; lia).
  assert (stat_git world_in_subdirectory fs_empty (take 2 (cwd world_in_subdirectory)) = true)
    as H2 by (vm_compute; reflexivity).
  assert (forall m, (2 < m <= length (cwd world_in_subdirectory))%nat ->
            stat_git world_in_subdirectory fs_empty (take m (cwd world_in_subdirectory))
            = false) as H3.
  { intros m Hm. simpl in Hm. assert (m = 3%nat) as -> by lia. vm_compute. reflexivity. }
  assert (length (cwd world_in_subdirectory) - 2 < 2)%nat as H4 by (simpl; lia).
  exact (conj H1 (conj H2 (conj H3 (conj H4
    (write_tree_hashes_nearest_repository stored stored_read 2 2 world_in_subdirectory
       fs_empty H1 H2 H3 H4))))).
Defined.

(** The theorem of X11 on [write-tree] run in [/tmp]. *)
Lemma write_tree_outside_repository_loops_witness :
  (forall m, stat_git world_outside fs_empty (take m (cwd world_outside)) = false)
  /\ forall fuel,
       main stored stored_read fuel world_outside [lit "mygit"; lit "write-tree"] fs_empty
       = None.
Proof.
  assert (forall m, stat_git world_outside fs_empty (take m (cwd world_outside)) = false)
    as H.
  { intros m. unfold stat_git.
    destruct (decide (take m (cwd world_outside) = cwd world_outside));
      [vm_compute|]; reflexivity. }
  exact (conj H (write_tree_outside_repository_loops stored stored_read world_outside
                   fs_empty H)).
Defined.

(** ** [init] *)

(** [os.MkdirAll] and [os.WriteFile] below a regular file do nothing. *)
Lemma MkdirAll_blocked (first : bytes) (rest : path) s :
  is_dir s [first] = false -> is_file s [first] = true ->
  snd (MkdirAll (first :: rest) s) = s.
Proof.
  intros Hdir Hfile. unfold MkdirAll, prefixes.
  cbn [length seq map take mkdir_chain]. rewrite !take_0, Hdir, Hfile. reflexivity.
Qed.

Lemma WriteFile_blocked (first name : bytes) data s :
  is_dir s [first] = false ->
  snd (WriteFile [first; name] data s) = s.
Proof.
  intros Hdir. unfold WriteFile, parent, prefixes.
  cbn [removelast length seq map take forallb]. rewrite ?take_0, Hdir.
  cbn [andb negb]. rewrite orb_true_r. reflexivity.
Qed.

Section Session.

Variable compress : bytes -> bytes.
Variable zlib_read : bytes -> zlib_result.

(** X12.  [init] reports success whatever happened: where [.git] is a
    regular file it can create nothing and changes nothing, and still
    prints that the directory was initialized and ends normally. *)
Theorem init_reports_success_when_blocked (fuel : nat) (w : world) (s : fs) :
  is_file s [lit ".git"] = true ->
  is_dir s [lit ".git"] = false ->
  main compress zlib_read fuel w [lit "mygit"; lit "init"] s
  = Some (Done (lit "Initialized git directory" ++ [LF]), s).
Proof.
  intros Hfile Hdir. unfold main. cbn [length Nat.ltb Nat.leb arg nth].
  rewrite decide_True by reflexivity. do 2 f_equal.
  unfold init.
  rewrite !(MkdirAll_blocked _ _ s Hdir Hfile).
  apply WriteFile_blocked, Hdir.
Qed.

End Session.

(** The theorem of X12 on a directory whose [.git] is a file. *)
Lemma init_reports_success_when_blocked_witness :
  is_file fs_git_is_file [lit ".git"] = true
  /\ is_dir fs_git_is_file [lit ".git"] = false
  /\ main stored stored_read 0 world_outside [lit "mygit"; lit "init"] fs_git_is_file
     = Some (Done (lit "Initialized git directory" ++ [LF]), fs_git_is_file).
Proof.
  assert (is_file fs_git_is_file [lit ".git"] = true) as H1 by (vm_compute; reflexivity).
  assert (is_dir fs_git_is_file [lit ".git"] = false) as H2 by (vm_compute; reflexivity).
  exact (conj H1 (conj H2
    (init_reports_success_when_blocked stored stored_read 0 world_outside fs_git_is_file
       H1 H2))).
Defined.

Lemma WriteFile_dirs p data s :
  dirs (snd (WriteFile p data s)) = dirs s /\ denied (snd (WriteFile p data s)) = denied s.
Proof.
  destruct (WriteFile p data s) as [r s'] eqn:E. cbn [snd].
  apply WriteFile_inv in E as [(_ & _ & -> & -> & _)|[_ ->]]; auto.
Qed.

(** The directories [init] makes have at most two components, and it
    refuses nothing that was allowed. *)
Lemma init_dirs s p :
  p ∈ dirs (init s) -> p ∈ dirs s \/ (length p <= 2)%nat.
Proof.
  unfold init. rewrite (proj1 (WriteFile_dirs _ _ _)). unfold MkdirAll. intros H.
  repeat match type of H with
         | _ ∈ dirs (snd (mkdir_chain ?ps ?s0)) =>
             apply (proj2 (proj2 (proj2 (mkdir_chain_keeps ps s0)))) in H as [H|H];
             [|right; clear -H;
               unfold prefixes in H; cbn [length seq map take] in H;
               repeat (apply elem_of_cons in H as [->|H]; [simpl; lia|]);
               apply elem_of_nil in H; contradiction]
         end.
  left. exact H.
Qed.

Lemma init_denied s : denied (init s) = denied s.
Proof.
  unfold init. rewrite (proj2 (WriteFile_dirs _ _ _)). unfold MkdirAll.
  repeat match goal with
         | |- context [denied (snd (mkdir_chain ?ps ?s0))] =>
             rewrite (proj1 (proj2 (mkdir_chain_keeps ps s0)))
         end.
  reflexivity.
Qed.

(** After [init] in an empty directory every object can be written. *)
Lemma can_put_fs_init sha : can_put fs_init sha = true.
Proof.
  assert (forall p, p <> [lit ".git"; lit "HEAD"] -> is_file fs_init p = false) as Hfile.
  { intros p Hp. unfold is_file. apply bool_decide_eq_false.
    unfold fs_init. rewrite init_files by exact Hp.
    unfold fs_empty. cbn [files].
    rewrite lookup_empty. intros [x Hx]. discriminate. }
  assert (forall p, p ∉ denied fs_init) as Hden.
  { intros p.
    unfold fs_init. rewrite (init_denied fs_empty).
    unfold fs_empty. cbn [denied]. apply not_elem_of_empty. }
  assert (is_dir fs_init (obj_path sha) = false) as Hdir.
  { unfold is_dir, fs_init. apply bool_decide_eq_false. intros H.
    apply init_dirs in H as [H|H].
    - unfold fs_empty in H. cbn [dirs] in H. apply not_elem_of_empty in H. exact H.
    - unfold obj_path in H. simpl in H. lia. }
  unfold can_put. rewrite Hdir, Hfile by discriminate.
  unfold prefixes, bucket_path. cbn [length seq map take forallb].
  rewrite !Hfile by discriminate.
  rewrite !bool_decide_eq_false_2 by apply Hden. reflexivity.
Qed.

Section EmptyDirectory.

Variable compress : bytes -> bytes.
Variable zlib_read : bytes -> zlib_result.
Hypothesis zlib_round_trip : forall b, zlib_read (compress b) = ZReadAll b false.

(** X13.  A whole session: in an empty directory, [init], then
    [hash-object] on a file that reads as [C], then [cat-file] on the
    digest printed, all end normally, and [cat-file] prints [C] and a
    line end.  The second argument of [hash-object] and of [cat-file]
    is not looked at: the object is written also without [-w]. *)
Theorem session_in_empty_directory
    (fuel : nat) (w : world) (f flag1 flag2 : bytes) (k : kind) (C : bytes) :
  file_at w f = NonDir k (Some C) ->
  let sha := fmt_x (SHA1.Sum (blob_object C)) in
  exists s2,
    main compress zlib_read fuel w [lit "mygit"; lit "init"] fs_empty
    = Some (Done (lit "Initialized git directory" ++ [LF]), fs_init)
    /\ main compress zlib_read fuel w [lit "mygit"; lit "hash-object"; flag1; f] fs_init
       = Some (Done (sha ++ [LF]), s2)
    /\ main compress zlib_read fuel w [lit "mygit"; lit "cat-file"; flag2; sha] s2
       = Some (Done (C ++ [LF]), s2).
Proof.
  intros Hf sha.
  destruct (put_ok sha (compress (blob_object C)) fs_init (can_put_fs_init sha))
    as [s2 Hput].
  exists s2. split; [|split].
  - unfold main. cbn [length Nat.ltb Nat.leb arg nth].
    rewrite decide_True by reflexivity. unfold fs_init. reflexivity.
  - unfold main. cbn [length Nat.ltb Nat.leb arg nth].
    rewrite !decide_False by by_compute. rewrite decide_True by reflexivity.
    rewrite Hf. unfold hash_object. cbn [ReadFile]. fold sha. rewrite Hput. reflexivity.
  - unfold main. cbn [length Nat.ltb Nat.leb arg nth].
    rewrite !decide_False by by_compute. rewrite decide_True by reflexivity.
    unfold cat_file. subst sha.
    rewrite (cat_file_data_blob compress zlib_read zlib_round_trip C s2).
    + reflexivity.
    + apply put_ok_inv in Hput as [-> _]. apply lookup_insert_eq.
Qed.

End EmptyDirectory.

(** The theorem of X13 on [binary_content]. *)
Lemma session_in_empty_directory_witness :
  (forall b, stored_read (stored b) = ZReadAll b false)
  /\ file_at world_with_file (lit "a.txt") = NonDir Regular (Some binary_content)
  /\ (let sha := fmt_x (SHA1.Sum (blob_object binary_content)) in
      exists s2,
        main stored stored_read 0 world_with_file [lit "mygit"; lit "init"] fs_empty
        = Some (Done (lit "Initialized git directory" ++ [LF]), fs_init)
        /\ main stored stored_read 0 world_with_file
             [lit "mygit"; lit "hash-object"; lit "-w"; lit "a.txt"] fs_init
           = Some (Done (sha ++ [LF]), s2)
        /\ main stored stored_read 0 world_with_file
             [lit "mygit"; lit "cat-file"; lit "-p"; sha] s2
           = Some (Done (binary_content ++ [LF]), s2)).
Proof.
  assert (forall b, stored_read (stored b) = ZReadAll b false) as H by reflexivity.
  assert (file_at world_with_file (lit "a.txt") = NonDir Regular (Some binary_content))
    as Hf by reflexivity.
  exact (conj H (conj Hf
    (session_in_empty_directory stored stored_read H 0 world_with_file
       (lit "a.txt") (lit "-w") (lit "-p") Regular binary_content Hf))).
Defined.

(** ** More on the walk of [hash_dir] *)

Section WalkMore.

Variable compress : bytes -> bytes.

(** X14.  An entry called [.git] is left out whatever it is, a
    directory, a file or a link, and wherever it stands in the
    listing: [hash_dir] gives the same result, and leaves the same
    store, as on the directory without that entry. *)
Theorem hash_dir_skips_git (pre post : list (bytes * node)) (x : node) (s : fs) :
  hash_dir compress (Dir (pre ++ (lit ".git", x) :: post)) s
  = hash_dir compress (Dir (pre ++ post)) s.
Proof.
  rewrite !hash_dir_Dir. unfold bind.
  rewrite !hash_entries_app. unfold bind.
  destruct (hash_entries compress (hash_dir compress) pre [] s) as [[acc|e] s1];
    [|reflexivity].
  rewrite hash_entries_skip. reflexivity.
Qed.

(** X15.  One entry that cannot be read stops the walk: with a file or
    a link whose read fails in the listing, [hash_dir] fails, with the
    read error unless an earlier entry failed already; no entry after
    it is visited and no tree is written for the directory, while what
    was written for the entries before it stays in the store. *)
Theorem hash_dir_unreadable_entry_aborts
    (pre post : list (bytes * node)) (name : bytes) (k : kind) (s : fs) :
  name <> lit ".git" ->
  hash_dir compress (Dir (pre ++ (name, NonDir k None) :: post)) s
  = match hash_entries compress (hash_dir compress) pre [] s with
    | (Ok _, s1) => (Err ReadError, s1)
    | (Err e, s1) => (Err e, s1)
    end.
Proof.
  intros Hname. rewrite hash_dir_Dir. unfold bind.
  rewrite hash_entries_app. unfold bind.
  destruct (hash_entries compress (hash_dir compress) pre [] s) as [[acc|e] s1];
    [|reflexivity].
  rewrite hash_entries_file by (exact Hname || reflexivity). reflexivity.
Qed.

End WalkMore.

(** The theorem of X15 on a dangling link after a regular file. *)
Lemma hash_dir_unreadable_entry_aborts_witness :
  lit "dangling" <> lit ".git"
  /\ hash_dir stored
       (Dir ([(lit "a.txt", NonDir Regular (Some (lit "x")))]
             ++ (lit "dangling", NonDir Symlink None)
             :: [(lit "z.txt", NonDir Regular (Some (lit "x")))])) fs_init
     = match hash_entries stored (hash_dir stored)
               [(lit "a.txt", NonDir Regular (Some (lit "x")))] [] fs_init with
       | (Ok _, s1) => (Err ReadError, s1)
       | (Err e, s1) => (Err e, s1)
       end.
Proof.
  assert (lit "dangling" <> lit ".git") as H by by_compute.
  exact (conj H (hash_dir_unreadable_entry_aborts stored
                   [(lit "a.txt", NonDir Regular (Some (lit "x")))]
                   [(lit "z.txt", NonDir Regular (Some (lit "x")))]
                   (lit "dangling") Symlink fs_init H)).
Defined.

(** ** What the writers change in the store *)

Lemma node_nested_ind (P : node -> Prop) :
  (forall listing, Forall (fun x => P (snd x)) listing -> P (Dir listing)) ->
  P DirErr ->
  (forall k r, P (NonDir k r)) ->
  forall n, P n.
Proof.
  intros HDir HErr HNon. fix IH 1. intros [listing| |k r].
  - apply HDir. revert listing. fix IHl 1. intros [|[name c] l].
    + constructor.
    + constructor; [apply IH|apply IHl].
  - exact HErr.
  - apply HNon.
Qed.

Lemma only_objects_written_refl s : only_objects_written s s.
Proof. split; auto. Qed.

Lemma only_objects_written_trans s1 s2 s3 :
  only_objects_written s1 s2 -> only_objects_written s2 s3 -> only_objects_written s1 s3.
Proof.
  intros [H1 H1'] [H2 H2']. split.
  - intros p Hp. rewrite H2, H1 by exact Hp. reflexivity.
  - auto.
Qed.

Lemma put_only_objects sha data s : only_objects_written s (snd (put sha data s)).
Proof.
  destruct (put sha data s) as [[[]|e] s'] eqn:E; cbn [snd].
  - apply put_ok_inv in E as [E _]. split; intros p Hp; rewrite E.
    + apply lookup_insert_ne. intros Heq. exact (Hp sha (eq_sym Heq)).
    + destruct (decide (obj_path sha = p)) as [->|Hne];
        [rewrite lookup_insert_eq; eauto|rewrite lookup_insert_ne by exact Hne; exact Hp].
  - apply put_err_inv in E as [E _]. split; intros p Hp; rewrite E; auto.
Qed.

Section Frame.

Variable compress : bytes -> bytes.

Lemma run_put_only_objects {A} sha data (a : A) s :
  only_objects_written s (snd ((run put sha data in ret a) s)).
Proof.
  rewrite run_put_ret. pose proof (put_only_objects sha data s) as H.
  destruct (put sha data s) as [[[]|e] s']; exact H.
Qed.

Lemma hash_file_only_objects file s :
  only_objects_written s (snd (hash_file compress file s)).
Proof.
  unfold hash_file. destruct (ReadFile file); [apply run_put_only_objects|].
  apply only_objects_written_refl.
Qed.

Lemma encode_tree_only_objects entries s :
  only_objects_written s (snd (encode_tree compress entries s)).
Proof. apply run_put_only_objects. Qed.

Lemma hash_entries_only_objects rec listing :
  Forall (fun x => forall s, only_objects_written s (snd (rec (snd x) s))) listing ->
  forall entries s,
    only_objects_written s (snd (hash_entries compress rec listing entries s)).
Proof.
  induction 1 as [|[name file] l Hx Hl IH]; intros entries s; cbn [hash_entries].
  - apply only_objects_written_refl.
  - destruct (decide (name = lit ".git")); [apply IH|].
    destruct (IsDir file); unfold bind.
    + pose proof (Hx s) as H1. cbn [snd] in H1.
      destruct (rec file s) as [[sha|e] s1]; cbn [snd] in *; [|exact H1].
      eapply only_objects_written_trans; [exact H1|apply IH].
    + pose proof (hash_file_only_objects file s) as H1.
      destruct (hash_file compress file s) as [[sha|e] s1]; cbn [snd] in *; [|exact H1].
      eapply only_objects_written_trans; [exact H1|apply IH].
Qed.

Lemma hash_dir_only_objects n :
  forall s, only_objects_written s (snd (hash_dir compress n s)).
Proof.
  induction n as [listing IH| |k r] using node_nested_ind; intros s.
  - rewrite hash_dir_Dir. unfold bind.
    pose proof (hash_entries_only_objects (hash_dir compress) listing IH [] s) as H1.
    destruct (hash_entries compress (hash_dir compress) listing [] s) as [[es|e] s1];
      cbn [snd] in *; [|exact H1].
    eapply only_objects_written_trans; [exact H1|apply encode_tree_only_objects].
  - apply only_objects_written_refl.
  - apply only_objects_written_refl.
Qed.

(** X16.  The writers write objects and nothing else: whether they
    succeed or fail, [hash_file], [hash_dir] on a whole tree and
    [commit_tree] leave every file that is not the file of an object
    as it was, [.git/HEAD] among them, and remove no file. *)
Theorem writers_only_write_objects
    (file n : node) (ts off : Z) (T P msg : bytes) (s : fs) :
  only_objects_written s (snd (hash_file compress file s))
  /\ only_objects_written s (snd (hash_dir compress n s))
  /\ only_objects_written s (snd (commit_tree compress ts off T P msg s))
  /\ (forall s', only_objects_written s s' ->
        files s' !! [lit ".git"; lit "HEAD"] = files s !! [lit ".git"; lit "HEAD"]).
Proof.
  split; [apply hash_file_only_objects|]. split; [apply hash_dir_only_objects|].
  split; [apply run_put_only_objects|].
  intros s' [H _]. apply H. intros sha. discriminate.
Qed.

End Frame.

(** ** The digest of a tree *)

Section ContentAddressing.

Variable compress : bytes -> bytes.

Lemma hash_file_same_digest file s1 s2 d1 d2 :
  fst (hash_file compress file s1) = Ok d1 ->
  fst (hash_file compress file s2) = Ok d2 -> d1 = d2.
Proof.
  unfold hash_file. destruct (ReadFile file) as [c|]; [|discriminate].
  rewrite !run_put_ret.
  destruct (put _ _ s1) as [[[]|e1] t1]; [|discriminate].
  destruct (put _ _ s2) as [[[]|e2] t2]; [|discriminate].
  cbn [fst]. congruence.
Qed.

Lemma hash_entries_same_entries rec listing :
  Forall (fun x => forall s1 s2 d1 d2,
            fst (rec (snd x) s1) = Ok d1 -> fst (rec (snd x) s2) = Ok d2 -> d1 = d2)
         listing ->
  forall acc s1 s2 es1 es2,
    fst (hash_entries compress rec listing acc s1) = Ok es1 ->
    fst (hash_entries compress rec listing acc s2) = Ok es2 -> es1 = es2.
Proof.
  induction 1 as [|[name file] l Hx Hl IH]; intros acc s1 s2 es1 es2; cbn [hash_entries].
  - unfold ret. cbn [fst]. congruence.
  - destruct (decide (name = lit ".git")); [apply IH|].
    cbn [snd] in Hx. destruct (IsDir file); unfold bind.
    + specialize (Hx s1 s2).
      destruct (rec file s1) as [[a1|e1] t1]; [|discriminate].
      destruct (rec file s2) as [[a2|e2] t2]; [|discriminate].
      rewrite (Hx a1 a2 eq_refl eq_refl). apply IH.
    + pose proof (hash_file_same_digest file s1 s2) as Hf.
      destruct (hash_file compress file s1) as [[a1|e1] t1]; [|discriminate].
      destruct (hash_file compress file s2) as [[a2|e2] t2]; [|discriminate].
      rewrite (Hf a1 a2 eq_refl eq_refl). apply IH.
Qed.

(** X17.  The digest of a tree is a matter of its content alone:
    whatever the store holds before, two successful runs of
    [hash_dir] on the same directory return the same digest. *)
Theorem hash_dir_digest_of_content (n : node) (s1 s2 : fs) (d1 d2 : bytes) :
  fst (hash_dir compress n s1) = Ok d1 ->
  fst (hash_dir compress n s2) = Ok d2 ->
  d1 = d2.
Proof.
  revert s1 s2 d1 d2.
  induction n as [listing IH| |k r] using node_nested_ind; intros s1 s2 d1 d2;
    [|discriminate..].
  rewrite !hash_dir_Dir. unfold bind.
  pose proof (hash_entries_same_entries (hash_dir compress) listing IH [] s1 s2) as He.
  destruct (hash_entries compress (hash_dir compress) listing [] s1) as [[es1|e1] t1];
    [|discriminate].
  destruct (hash_entries compress (hash_dir compress) listing [] s2) as [[es2|e2] t2];
    [|discriminate].
  rewrite (He es1 es2 eq_refl eq_refl).
  pose proof (encode_tree_digest compress es2 t1) as D1.
  pose proof (encode_tree_digest compress es2 t2) as D2.
  destruct (encode_tree compress es2 t1) as [[x1|x1] u1]; [|discriminate].
  destruct (encode_tree compress es2 t2) as [[x2|x2] u2]; [|discriminate].
  cbn [fst]. intros [= <-] [= <-]. destruct D1 as [-> _], D2 as [-> _]. reflexivity.
Qed.

End ContentAddressing.

(** The theorem of X17 on a fresh store and on one that has objects. *)
Lemma hash_dir_digest_of_content_witness :
  fst (hash_dir stored work_tree fs_init) = Ok (SHA1.Sum work_tree_object)
  /\ fst (hash_dir stored work_tree store_old) = Ok (SHA1.Sum work_tree_object)
  /\ SHA1.Sum work_tree_object = SHA1.Sum work_tree_object.
Proof.
  assert (fst (hash_dir stored work_tree fs_init) = Ok (SHA1.Sum work_tree_object))
    as H1 by (vm_compute; reflexivity).
  assert (fst (hash_dir stored work_tree store_old) = Ok (SHA1.Sum work_tree_object))
    as H2 by (vm_compute; reflexivity).
  exact (conj H1 (conj H2
    (hash_dir_digest_of_content stored work_tree fs_init store_old _ _ H1 H2))).
Defined.

(** ** The tree that [hash_dir] writes *)

Lemma recorded_names_cons name file listing :
  recorded_names ((name, file) :: listing)
  = if decide (name = lit ".git") then recorded_names listing
    else name :: recorded_names listing.
Proof.
  unfold recorded_names. cbn [map fst].
  destruct (decide (name = lit ".git")) as [E|E].
  - rewrite filter_cons_False; [reflexivity|]. intros H. exact (H E).
  - rewrite filter_cons_True; [reflexivity|exact E].
Qed.

Section Shape.

Variable compress : bytes -> bytes.

Lemma hash_file_stores file s d s' :
  hash_file compress file s = (Ok d, s') -> stores_digest s d s'.
Proof.
  intros H. pose proof (hash_file_only_objects compress file s) as Hframe.
  rewrite H in Hframe. cbn [snd] in Hframe.
  unfold hash_file in H. destruct (ReadFile file) as [c|]; [|discriminate].
  rewrite run_put_ret in H.
  destruct (put _ _ s) as [[[]|e] s1] eqn:E; [|discriminate].
  injection H as <- <-. apply put_ok_inv in E as [E _].
  split; [apply Sum_length|]. split; [|exact Hframe].
  rewrite E, lookup_insert_eq. eauto.
Qed.

Lemma hash_dir_stores n s d s' :
  hash_dir compress n s = (Ok d, s') -> stores_digest s d s'.
Proof.
  intros H. pose proof (hash_dir_only_objects compress n s) as Hframe.
  rewrite H in Hframe. cbn [snd] in Hframe.
  destruct n as [listing| |k r]; [|discriminate..].
  rewrite hash_dir_Dir in H. apply bind_ok_inv in H as (es & s1 & _ & H).
  apply encode_tree_inv in H as [-> E].
  split; [apply Sum_length|]. split; [|exact Hframe].
  rewrite E, lookup_insert_eq. eauto.
Qed.

Lemma hash_entries_shape listing :
  forall acc s es s',
    hash_entries compress (hash_dir compress) listing acc s = (Ok es, s') ->
    exists new : list entry,
      es = acc ++ map format new
      /\ map name new = recorded_names listing
      /\ Forall (fun e => length (child e) = 20%nat
                          /\ is_Some (files s' !! obj_path (fmt_x (child e)))) new
      /\ only_objects_written s s'.
Proof.
  induction listing as [|[nm file] l IH]; intros acc s es s'; cbn [hash_entries].
  - intros [= <- <-]. exists []. rewrite app_nil_r.
    repeat split; auto.
  - rewrite recorded_names_cons.
    destruct (decide (nm = lit ".git")); [apply IH|].
    assert (forall m d s1,
               stores_digest s d s1 ->
               hash_entries compress (hash_dir compress) l
                 (acc ++ [format_entry m nm d]) s1 = (Ok es, s') ->
               exists new : list entry,
                 es = acc ++ map format new
                 /\ map name new = nm :: recorded_names l
                 /\ Forall (fun e => length (child e) = 20%nat
                                     /\ is_Some (files s' !! obj_path (fmt_x (child e)))) new
                 /\ only_objects_written s s') as Hstep.
    { intros m d s1 (Hlen & Hsome & Hframe) H.
      apply IH in H as (new & -> & Hnames & Hall & Hframe').
      exists (Entry m nm d :: new). split; [rewrite <- app_assoc; reflexivity|].
      split; [cbn [map name]; rewrite Hnames; reflexivity|]. split.
      - constructor; [|exact Hall]. cbn [child]. split; [exact Hlen|].
        apply Hframe', Hsome.
      - eapply only_objects_written_trans; eassumption. }
    destruct (IsDir file); intros H; apply bind_ok_inv in H as (d & s1 & Hd & H).
    + apply (Hstep mode_dir d s1); [apply (hash_dir_stores _ _ _ _ Hd)|exact H].
    + apply (Hstep mode_file d s1); [apply (hash_file_stores _ _ _ _ Hd)|exact H].
Qed.

(** X18.  What a tree refers to is in the store: after a successful
    [hash_dir] the tree object holds one entry for each name of the
    listing but [.git], and for each of these entries the store has an
    object under the digest recorded, written before the tree itself. *)
Theorem hash_dir_children_stored (listing : list (bytes * node)) (s : fs) (d : bytes) :
  fst (hash_dir compress (Dir listing) s) = Ok d ->
  let s' := snd (hash_dir compress (Dir listing) s) in
  exists es : list entry,
    d = SHA1.Sum (tree_object (map format es))
    /\ files s' !! obj_path (fmt_x d) = Some (compress (tree_object (map format es)))
    /\ map name es = recorded_names listing
    /\ Forall (fun e => is_Some (files s' !! obj_path (fmt_x (child e)))) es.
Proof.
  destruct (hash_dir compress (Dir listing) s) as [r s'] eqn:H. cbn [fst snd].
  intros ->. rewrite hash_dir_Dir in H.
  apply bind_ok_inv in H as (es & s1 & Hent & Henc).
  apply hash_entries_shape in Hent as (new & -> & Hnames & Hall & _).
  rewrite app_nil_l in Henc.
  pose proof (encode_tree_only_objects compress (map format new) s1) as [_ Hmono].
  rewrite Henc in Hmono. cbn [snd] in Hmono.
  apply encode_tree_inv in Henc as [-> E].
  exists new. split; [reflexivity|]. split; [rewrite E; apply lookup_insert_eq|].
  split; [exact Hnames|].
  eapply Forall_impl; [exact Hall|]. intros e [_ He]. apply Hmono, He.
Qed.

End Shape.

(** The theorem of X18 on [work_tree]. *)
Lemma hash_dir_children_stored_witness :
  fst (hash_dir stored
         (Dir [ (lit "a.txt", NonDir Regular (Some (lit "x"))); (lit "b", Dir []) ]) fs_init)
  = Ok (SHA1.Sum work_tree_object)
  /\ (let s' := snd (hash_dir stored
                       (Dir [ (lit "a.txt", NonDir Regular (Some (lit "x")));
                              (lit "b", Dir []) ]) fs_init) in
      exists es : list entry,
        SHA1.Sum work_tree_object = SHA1.Sum (tree_object (map format es))
        /\ files s' !! obj_path (fmt_x (SHA1.Sum work_tree_object))
           = Some (stored (tree_object (map format es)))
        /\ map name es
           = recorded_names [ (lit "a.txt", NonDir Regular (Some (lit "x")));
                              (lit "b", Dir []) ]
        /\ Forall (fun e => is_Some (files s' !! obj_path (fmt_x (child e)))) es).
Proof.
  assert (fst (hash_dir stored
                 (Dir [ (lit "a.txt", NonDir Regular (Some (lit "x"))); (lit "b", Dir []) ])
                 fs_init)
          = Ok (SHA1.Sum work_tree_object)) as H by (vm_compute; reflexivity).
  exact (conj H (hash_dir_children_stored stored _ fs_init _ H)).
Defined.

(** ** Listing a tree that [hash_dir] wrote *)

Lemma tree_payload_loop p names :
  tree_payload p names ->
  forall fuel acc, (length p < fuel)%nat ->
    ls_tree_loop fuel p acc = Some (Done (acc ++ names)).
Proof.
  intros Hwf fuel acc Hfuel.
  destruct (ls_tree_loop_spec fuel p acc Hfuel) as [(names' & Hwf' & ->)|[Hbad _]].
  - do 3 f_equal. clear -Hwf Hwf'. revert names' Hwf'.
    induction Hwf as [|m n sha rest ns Hm Hn Hs Hr IH]; intros names' Hwf'.
    + inversion Hwf' as [|m' n' sha' rest' ns' Hm' Hn' Hs' Hr' E]; [reflexivity|].
      destruct m'; discriminate.
    + inversion Hwf' as [E|m' n' sha' rest' ns' Hm' Hn' Hs' Hr' E]; subst.
      { destruct m; discriminate. }
      apply first_split_unique in E as [-> E]; [|assumption..].
      apply first_split_unique in E as [-> E]; [|assumption..].
      apply app_inj_1 in E as [-> ->]; [|congruence].
      f_equal. apply IH, Hr'.
  - exfalso. exact (Hbad names Hwf).
Qed.

Lemma entries_payload (es : list entry) :
  Forall (fun e => (NUL ∉ name e) /\ length (child e) = 20%nat) es ->
  tree_payload (concat (map format es)) (map name es).
Proof.
  induction 1 as [|e es [Hn Hc] _ IH]; cbn [map concat]; [constructor|].
  unfold format at 1, format_entry.
  replace ((fmt_o (mode e) ++ [SP] ++ name e ++ [NUL] ++ child e) ++ concat (map format es))
    with (fmt_o (mode e) ++ SP :: name e ++ NUL :: child e ++ concat (map format es)).
  2: { rewrite <- !app_assoc. reflexivity. }
  constructor; [|exact Hn|exact Hc|exact IH].
  apply (plain_not_in SP); [apply SP_not_plain|apply fmt_o_plain].
Qed.

Lemma names_sorted_map (es : list entry) :
  StronglySorted name_le es ->
  StronglySorted (fun a b => bytes_ltb b a = false) (map name es).
Proof.
  induction 1 as [|e es _ IH Hall]; cbn [map]; constructor; [exact IH|].
  apply Forall_forall. intros n Hn.
  apply list_elem_of_In, in_map_iff in Hn as (e' & <- & He').
  rewrite Forall_forall in Hall. apply Hall, list_elem_of_In, He'.
Qed.

Section Listing.

Variable compress : bytes -> bytes.
Variable zlib_read : bytes -> zlib_result.
Hypothesis zlib_round_trip : forall b, zlib_read (compress b) = ZReadAll b false.

(** X19.  [ls-tree] reads back what [hash_dir] wrote: after a
    successful [hash_dir] on a directory whose names have no NUL byte,
    [ls-tree] on the digest returned ends normally and lists the names
    of the directory, all but [.git], each once for each entry, in
    byte-wise order. *)
Theorem ls_tree_lists_what_hash_dir_wrote
    (listing : list (bytes * node)) (s : fs) (d : bytes) :
  Forall (fun x => NUL ∉ fst x) listing ->
  fst (hash_dir compress (Dir listing) s) = Ok d ->
  exists names,
    ls_tree zlib_read (fmt_x d) (snd (hash_dir compress (Dir listing) s))
    = Some (Done names)
    /\ names ≡ₚ recorded_names listing
    /\ StronglySorted (fun a b => bytes_ltb b a = false) names.
Proof.
  intros Hnul.
  destruct (hash_dir compress (Dir listing) s) as [r s'] eqn:H. cbn [fst snd].
  intros ->. rewrite hash_dir_Dir in H.
  apply bind_ok_inv in H as (es & s1 & Hent & Henc).
  apply hash_entries_shape in Hent as (new & -> & Hnames & Hall & _).
  rewrite app_nil_l in Henc. apply encode_tree_inv in Henc as [-> E].
  pose proof (sort_entries_perm (map format new)) as Hp.
  apply Permutation_map_inv in Hp as (es' & Heq & Hperm).
  assert (Forall (fun e => (NUL ∉ name e) /\ length (child e) = 20%nat) es') as Hes'.
  { apply Forall_forall. intros e He. rewrite <- Hperm in He. split.
    - assert (name e ∈ recorded_names listing) as Hin.
      { rewrite <- Hnames. apply list_elem_of_In, in_map, list_elem_of_In, He. }
      unfold recorded_names in Hin. apply list_elem_of_filter in Hin as [_ Hin].
      apply list_elem_of_In, in_map_iff in Hin as (x & <- & Hx).
      rewrite Forall_forall in Hnul. apply Hnul, list_elem_of_In, Hx.
    - rewrite Forall_forall in Hall. apply (Hall e He). }
  exists (map name es'). split; [|split].
  - rewrite (ls_tree_stored compress zlib_read zlib_round_trip).
    2: { rewrite E. apply lookup_insert_eq. }
    unfold tree_object. rewrite Heq, ls_tree_parse_object.
    apply (tree_payload_loop _ _ (entries_payload es' Hes') _ []). lia.
  - rewrite <- Hnames. apply Permutation_map. symmetry. exact Hperm.
  - apply names_sorted_map, names_sorted.
    + eapply Forall_impl; [exact Hes'|]. intros e [He _]. exact He.
    + rewrite <- Heq. apply sort_entries_sorted.
Qed.

End Listing.

(** The theorem of X19 on [work_tree]. *)
Lemma ls_tree_lists_what_hash_dir_wrote_witness :
  (forall b, stored_read (stored b) = ZReadAll b false)
  /\ Forall (fun x => NUL ∉ fst x)
       [ (lit "a.txt", NonDir Regular (Some (lit "x"))); (lit "b", Dir []) ]
  /\ fst (hash_dir stored
            (Dir [ (lit "a.txt", NonDir Regular (Some (lit "x"))); (lit "b", Dir []) ])
            fs_init)
     = Ok (SHA1.Sum work_tree_object)
  /\ exists names,
       ls_tree stored_read (fmt_x (SHA1.Sum work_tree_object))
         (snd (hash_dir stored
                 (Dir [ (lit "a.txt", NonDir Regular (Some (lit "x"))); (lit "b", Dir []) ])
                 fs_init))
       = Some (Done names)
       /\ names ≡ₚ recorded_names
                     [ (lit "a.txt", NonDir Regular (Some (lit "x"))); (lit "b", Dir []) ]
       /\ StronglySorted (fun a b => bytes_ltb b a = false) names.
Proof.
  assert (forall b, stored_read (stored b) = ZReadAll b false) as H by reflexivity.
  assert (Forall (fun x : bytes * node => NUL ∉ fst x)
            [ (lit "a.txt", NonDir Regular (Some (lit "x"))); (lit "b", Dir []) ]) as Hn.
  { repeat constructor; cbn [fst]; by_compute. }
  assert (fst (hash_dir stored
                 (Dir [ (lit "a.txt", NonDir Regular (Some (lit "x"))); (lit "b", Dir []) ])
                 fs_init)
          = Ok (SHA1.Sum work_tree_object)) as Hrun by (vm_compute; reflexivity).
  exact (conj H (conj Hn (conj Hrun
    (ls_tree_lists_what_hash_dir_wrote stored stored_read H _ fs_init _ Hn Hrun)))).
Defined.

(** ** Names that begin alike *)

Lemma bytes_ltb_proper_prefix n r : r <> [] -> bytes_ltb n (n ++ r) = true.
Proof.
  intros Hr. induction n as [|x n IH]; simpl.
  - destruct r; [congruence|reflexivity].
  - rewrite Z.ltb_irrefl. exact IH.
Qed.

(** X20.  The order of a tree looks at the names alone, not at what
    they name: a name that is the beginning of another comes first,
    also when it is a directory, so the directory [foo] stands before
    the file [foo.txt], in whichever order the two were found. *)
Theorem prefix_name_sorts_first (m1 m2 : Z) (n r d1 d2 : bytes) :
  r <> [] -> NUL ∉ n ++ r ->
  sort_entries [format_entry m2 (n ++ r) d2; format_entry m1 n d1]
  = [format_entry m1 n d1; format_entry m2 (n ++ r) d2]
  /\ sort_entries [format_entry m1 n d1; format_entry m2 (n ++ r) d2]
     = [format_entry m1 n d1; format_entry m2 (n ++ r) d2].
Proof.
  intros Hr Hnul.
  assert (less (format_entry m1 n d1) (format_entry m2 (n ++ r) d2) = true) as Hlt.
  { unfold less. rewrite !sort_key_format.
    apply bytes_ltb_key; [exact Hnul|apply bytes_ltb_proper_prefix, Hr]. }
  assert (entry_le (format_entry m1 n d1) (format_entry m2 (n ++ r) d2)) as Hle.
  { unfold entry_le, less. apply bytes_ltb_asym. exact Hlt. }
  assert (StronglySorted entry_le [format_entry m1 n d1; format_entry m2 (n ++ r) d2])
    as Hsorted by (repeat constructor; exact Hle).
  assert (forall l, l ≡ₚ [format_entry m1 n d1; format_entry m2 (n ++ r) d2] ->
             sort_entries l = [format_entry m1 n d1; format_entry m2 (n ++ r) d2]) as Huniq.
  { intros l Hl. apply (StronglySorted_unique_strong entry_le);
      [|apply sort_entries_sorted|exact Hsorted|rewrite sort_entries_perm; exact Hl].
    intros x1 x2 Hx1 Hx2 H12 H21. rewrite sort_entries_perm, Hl in Hx1.
    assert (forall a b, a ∈ [format_entry m1 n d1; format_entry m2 (n ++ r) d2] ->
              b ∈ [format_entry m1 n d1; format_entry m2 (n ++ r) d2] ->
              entry_le a b -> entry_le b a -> a = b) as Hanti.
    { intros a b Ha Hb Hab Hba.
      apply elem_of_cons in Ha as [->|Ha]; [|apply list_elem_of_singleton in Ha as ->];
      (apply elem_of_cons in Hb as [->|Hb]; [|apply list_elem_of_singleton in Hb as ->]);
      try reflexivity; unfold entry_le in Hab, Hba; congruence. }
    apply Hanti; assumption. }
  split; apply Huniq; [apply perm_swap|reflexivity].
Qed.

(** The theorem of X20 on the directory [foo] and the file [foo.txt]. *)
Lemma prefix_name_sorts_first_witness :
  lit ".txt" <> []
  /\ (NUL ∉ lit "foo" ++ lit ".txt")
  /\ sort_entries [format_entry mode_file (lit "foo" ++ lit ".txt") blob_x;
                   format_entry mode_dir (lit "foo") empty_tree]
     = [format_entry mode_dir (lit "foo") empty_tree;
        format_entry mode_file (lit "foo" ++ lit ".txt") blob_x]
  /\ sort_entries [format_entry mode_dir (lit "foo") empty_tree;
                   format_entry mode_file (lit "foo" ++ lit ".txt") blob_x]
     = [format_entry mode_dir (lit "foo") empty_tree;
        format_entry mode_file (lit "foo" ++ lit ".txt") blob_x].
Proof.
  assert (lit ".txt" <> []) as H1 by by_compute.
  assert (NUL ∉ lit "foo" ++ lit ".txt") as H2 by by_compute.
  exact (conj H1 (conj H2
    (prefix_name_sorts_first mode_dir mode_file (lit "foo") (lit ".txt") empty_tree blob_x
       H1 H2))).
Defined.

(** ** The two writers of blobs, and [ls-tree] on a commit *)

(** The loop of [ls-tree] on a payload whose first name never ends. *)
Lemma ls_tree_loop_open_name fuel (m rest : bytes) acc :
  (SP ∉ m) -> (NUL ∉ rest) ->
  ls_tree_loop (S fuel) (m ++ SP :: rest) acc = Some Panic.
Proof.
  intros Hm Hrest. cbn [ls_tree_loop].
  rewrite decide_False by (destruct m; discriminate).
  rewrite (IndexByte_first m SP rest Hm).
  assert ((len m <? 0) = false) as -> by (apply Z.ltb_ge; unfold len; lia).
  destruct (take_drop_first m SP rest _ eq_refl) as [-> ->].
  rewrite (IndexByte_absent rest NUL Hrest). reflexivity.
Qed.

Section Agreement.

Variable compress : bytes -> bytes.
Variable zlib_read : bytes -> zlib_result.

(** X21.  The two places that write a blob agree: on a file that can
    be read, [hash-object] writes what [hash_file] writes for it
    during [write-tree], leaves the same store and prints the digest
    [hash_file] returns; it exits with status 1 exactly when
    [hash_file] fails. *)
Theorem hash_object_agrees_with_hash_file (file : node) (c : bytes) (s : fs) :
  ReadFile file = Some c ->
  hash_object compress file s
  = match hash_file compress file s with
    | (Ok rawSha, s') => (Done (fmt_x rawSha ++ [LF]), s')
    | (Err (MkdirError _), s') => (Exit1 (lit "Error creating folder"), s')
    | (Err _, s') => (Exit1 (lit "Error creating file"), s')
    end.
Proof.
  intros Hread. unfold hash_object, hash_file. rewrite Hread, run_put_ret.
  destruct (put _ _ s) as [[[]|e] s']; reflexivity.
Qed.

Hypothesis zlib_round_trip : forall b, zlib_read (compress b) = ZReadAll b false.

Lemma commit_payload_split ts off T P msg :
  exists rest,
    commit_payload ts off T P msg = lit "tree" ++ SP :: rest
    /\ ((NUL ∉ T) -> (NUL ∉ P) -> (NUL ∉ msg) -> NUL ∉ rest).
Proof.
  unfold commit_payload, author, committer.
  eexists. split.
  - change (lit "tree ") with (lit "tree" ++ [SP]). rewrite <- !app_assoc. reflexivity.
  - intros HT HP Hmsg.
    assert (NUL ∉ fmt_d ts) as Hts
      by (apply (plain_not_in NUL); [apply NUL_not_plain|apply fmt_d_plain]).
    assert (NUL ∉ fmt_zone off) as Hz
      by (apply (plain_not_in NUL); [apply NUL_not_plain|apply fmt_zone_plain]).
    cbn [app].
    destruct (decide (P = [])), (decide (msg = []));
      repeat (rewrite not_elem_of_app || rewrite not_elem_of_cons);
      repeat split;
      try assumption; try discriminate; try apply not_elem_of_nil;
      match goal with |- _ ∉ lit _ => by_compute end.
Qed.

(** X22.  [ls-tree] does not ask what kind of object it reads: given
    the digest of a commit that [commit_tree] has written (tree,
    parent and message without a NUL byte), it takes the payload for
    tree entries, finds no end of a name, and stops with a run-time
    panic. *)
Theorem ls_tree_on_commit_panics (ts off : Z) (T P msg : bytes) (s : fs) (d : bytes) :
  (NUL ∉ T) -> (NUL ∉ P) -> (NUL ∉ msg) ->
  fst (commit_tree compress ts off T P msg s) = Ok d ->
  ls_tree zlib_read (fmt_x d) (snd (commit_tree compress ts off T P msg s)) = Some Panic.
Proof.
  intros HT HP Hmsg.
  pose proof (commit_tree_digest compress ts off T P msg s) as H.
  destruct (commit_tree compress ts off T P msg s) as [[d'|e] s']; [|discriminate].
  cbn [fst snd]. intros [= <-]. destruct H as [-> Hfile].
  unfold ls_tree, Open. rewrite hex_digest_len, Hfile, zlib_round_trip.
  unfold ls_tree_parse, commit_object.
  set (payload := commit_payload ts off T P msg).
  replace (lit "commit " ++ fmt_d (len payload) ++ [NUL] ++ payload)
    with ((lit "commit " ++ fmt_d (len payload)) ++ NUL :: payload)
    by (rewrite <- app_assoc; reflexivity).
  rewrite drop_header by apply commit_header_no_NUL.
  destruct (commit_payload_split ts off T P msg) as (rest & Hsplit & Hrest).
  fold payload in Hsplit. rewrite Hsplit.
  apply ls_tree_loop_open_name; [by_compute|exact (Hrest HT HP Hmsg)].
Qed.

End Agreement.

(** The theorem of X21 on a regular file. *)
Lemma hash_object_agrees_with_hash_file_witness :
  ReadFile (NonDir Regular (Some binary_content)) = Some binary_content
  /\ hash_object stored (NonDir Regular (Some binary_content)) fs_init
     = match hash_file stored (NonDir Regular (Some binary_content)) fs_init with
       | (Ok rawSha, s') => (Done (fmt_x rawSha ++ [LF]), s')
       | (Err (MkdirError _), s') => (Exit1 (lit "Error creating folder"), s')
       | (Err _, s') => (Exit1 (lit "Error creating file"), s')
       end.
Proof.
  assert (ReadFile (NonDir Regular (Some binary_content)) = Some binary_content)
    as H by reflexivity.
  exact (conj H (hash_object_agrees_with_hash_file stored _ _ fs_init H)).
Defined.

(** The theorem of X22 on the first commit of the empty tree. *)
Lemma ls_tree_on_commit_panics_witness :
  (forall b, stored_read (stored b) = ZReadAll b false)
  /\ (NUL ∉ empty_tree_sha) /\ (NUL ∉ @nil byte) /\ (NUL ∉ lit "init")
  /\ fst (commit_tree stored 0 0 empty_tree_sha [] (lit "init") fs_init)
     = Ok (SHA1.Sum init_payload)
  /\ ls_tree stored_read (fmt_x (SHA1.Sum init_payload))
       (snd (commit_tree stored 0 0 empty_tree_sha [] (lit "init") fs_init))
     = Some Panic.
Proof.
  assert (forall b, stored_read (stored b) = ZReadAll b false) as H by reflexivity.
  assert (NUL ∉ empty_tree_sha) as H1 by by_compute.
  assert (NUL ∉ @nil byte) as H2 by apply not_elem_of_nil.
  assert (NUL ∉ lit "init") as H3 by by_compute.
  assert (fst (commit_tree stored 0 0 empty_tree_sha [] (lit "init") fs_init)
          = Ok (SHA1.Sum init_payload)) as Hrun by (vm_compute; reflexivity).
  exact (conj H (conj H1 (conj H2 (conj H3 (conj Hrun
    (ls_tree_on_commit_panics stored stored_read H 0 0 empty_tree_sha [] (lit "init")
       fs_init _ H1 H2 H3 Hrun)))))).
Defined.

(** ** [write-tree] below the repository *)

Lemma WriteFile_ok_parents p data s s' :
  WriteFile p data s = (Ok tt, s') ->
  forallb (is_dir s') (prefixes (parent p)) = true.
Proof.
  unfold WriteFile. destruct (is_dir s p); cbn [orb]; [discriminate|].
  destruct (forallb (is_dir s) (prefixes (parent p))) eqn:E; cbn [negb orb]; [|discriminate].
  destruct (bool_decide (p ∈ denied s)); [discriminate|].
  intros [= <-]. exact E.
Qed.

(** A successful write leaves the directories on the way to the object. *)
Lemma put_ok_dirs sha data s s' :
  put sha data s = (Ok tt, s') ->
  is_dir s' [lit ".git"] = true
  /\ is_dir s' [lit ".git"; lit "objects"] = true
  /\ is_dir s' (bucket_path sha) = true.
Proof.
  intros H.
  assert (WriteFile_ok : exists s1, WriteFile (obj_path sha) data s1 = (Ok tt, s')).
  { rewrite put_unfold in H. destruct (stat_not_exist s (obj_path sha)); [|eauto].
    destruct (MkdirAll (bucket_path sha) s) as [[[]|e] s1]; [eauto|discriminate]. }
  destruct WriteFile_ok as [s1 Hw]. apply WriteFile_ok_parents in Hw.
  unfold parent, obj_path, prefixes in Hw.
  cbn [removelast length seq map take forallb] in Hw. rewrite ?take_0 in Hw.
  rewrite !andb_true_iff in Hw. destruct Hw as (H1 & H2 & H3 & _). auto.
Qed.

Section Subdirectory.

Variable compress : bytes -> bytes.
Variable zlib_read : bytes -> zlib_result.

(** X23.  The objects go below the working directory, not into the
    repository found: when [write-tree] is started in a directory
    without [.git], below the one it hashes, and succeeds, it has made
    a new [.git/objects] in the working directory and put the tree
    object there. *)
Theorem write_tree_in_subdirectory_makes_store
    (fuel n : nat) (w : world) (s : fs) (d : bytes) :
  (n < length (cwd w))%nat ->
  stat_git w s (take n (cwd w)) = true ->
  (forall m, (n < m <= length (cwd w))%nat -> stat_git w s (take m (cwd w)) = false) ->
  (length (cwd w) - n < fuel)%nat ->
  fst (hash_dir compress (tree_at w (take n (cwd w))) s) = Ok d ->
  exists s',
    main compress zlib_read fuel w [lit "mygit"; lit "write-tree"] s
    = Some (Done (fmt_x d ++ [LF]), s')
    /\ is_dir s [lit ".git"] = false
    /\ is_dir s' [lit ".git"] = true
    /\ is_dir s' [lit ".git"; lit "objects"] = true
    /\ is_Some (files s' !! obj_path (fmt_x d)).
Proof.
  intros Hn Hgit Habove Hfuel Hok.
  assert (find_git_dir fuel w s (cwd w) = Some (take n (cwd w))) as Hfind.
  { rewrite <- (firstn_all (cwd w)) at 1.
    apply find_git_dir_up; [lia|exact Hgit|exact Habove|lia]. }
  destruct (hash_dir compress (tree_at w (take n (cwd w))) s) as [[d'|e] s'] eqn:E;
    cbn [fst] in Hok; [|discriminate].
  injection Hok as ->. exists s'. split; [|split; [|split; [|split]]].
  - unfold main. cbn [length Nat.ltb Nat.leb arg nth].
    rewrite !decide_False by by_compute. rewrite decide_True by reflexivity.
    unfold write_tree. rewrite Hfind, E. reflexivity.
  - specialize (Habove (length (cwd w)) ltac:(lia)).
    rewrite firstn_all in Habove. unfold stat_git in Habove.
    rewrite decide_True in Habove by reflexivity.
    apply orb_false_iff in Habove as [Habove _]. exact Habove.
  - destruct (tree_at w (take n (cwd w))) as [listing| |k r]; [|discriminate..].
    rewrite hash_dir_Dir in E. apply bind_ok_inv in E as (es & s1 & _ & E).
    unfold encode_tree in E. rewrite run_put_ret in E.
    destruct (put _ _ s1) as [[[]|e] s2] eqn:Hput; [|discriminate].
    injection E as _ <-. apply put_ok_dirs in Hput. apply Hput.
  - destruct (tree_at w (take n (cwd w))) as [listing| |k r]; [|discriminate..].
    rewrite hash_dir_Dir in E. apply bind_ok_inv in E as (es & s1 & _ & E).
    unfold encode_tree in E. rewrite run_put_ret in E.
    destruct (put _ _ s1) as [[[]|e] s2] eqn:Hput; [|discriminate].
    injection E as _ <-. apply put_ok_dirs in Hput. apply Hput.
  - apply hash_dir_stores in E. exact (proj1 (proj2 E)).
Qed.

End Subdirectory.

(** The theorem of X23 on [write-tree] run in [/home/repo/src]. *)
Lemma write_tree_in_subdirectory_makes_store_witness :
  (2 < length (cwd world_in_subdirectory))%nat
  /\ stat_git world_in_subdirectory fs_empty (take 2 (cwd world_in_subdirectory)) = true
  /\ (forall m, (2 < m <= length (cwd world_in_subdirectory))%nat ->
        stat_git world_in_subdirectory fs_empty (take m (cwd world_in_subdirectory)) = false)
  /\ (length (cwd world_in_subdirectory) - 2 < 2)%nat
  /\ fst (hash_dir stored
            (tree_at world_in_subdirectory (take 2 (cwd world_in_subdirectory))) fs_empty)
     = Ok (SHA1.Sum work_tree_object)
  /\ exists s',
       main stored stored_read 2 world_in_subdirectory [lit "mygit"; lit "write-tree"] fs_empty
       = Some (Done (fmt_x (SHA1.Sum work_tree_object) ++ [LF]), s')
       /\ is_dir fs_empty [lit ".git"] = false
       /\ is_dir s' [lit ".git"] = true
       /\ is_dir s' [lit ".git"; lit "objects"] = true
       /\ is_Some (files s' !! obj_path (fmt_x (SHA1.Sum work_tree_object))).
Proof.
  assert (2 < length (cwd world_in_subdirectory))%nat as H1 by (simpl; lia).
  assert (stat_git world_in_subdirectory fs_empty (take 2 (cwd world_in_subdirectory)) = true)
    as H2 by (vm_compute; reflexivity).
  assert (forall m, (2 < m <= length (cwd world_in_subdirectory))%nat ->
            stat_git world_in_subdirectory fs_empty (take m (cwd world_in_subdirectory))
            = false) as H3.
  { intros m Hm. simpl in Hm. assert (m = 3%nat) as -> by lia. vm_compute. reflexivity. }
  assert (length (cwd world_in_subdirectory) - 2 < 2)%nat as H4 by (simpl; lia).
  assert (fst (hash_dir stored
                 (tree_at world_in_subdirectory (take 2 (cwd world_in_subdirectory)))
                 fs_empty)
          = Ok (SHA1.Sum work_tree_object)) as H5 by (vm_compute; reflexivity).
  exact (conj H1 (conj H2 (conj H3 (conj H4 (conj H5
    (write_tree_in_subdirectory_makes_store stored stored_read 2 2 world_in_subdirectory
       fs_empty _ H1 H2 H3 H4 H5)))))).
Defined.

(** ** [init] in a repository *)

Section Reinit.

Variable compress : bytes -> bytes.
Variable zlib_read : bytes -> zlib_result.

(** X24.  [init] in a repository is not harmless: where [.git] is a
    directory and [.git/HEAD] can be written, it writes
    [ref: refs/heads/master] over whatever [HEAD] held, for instance
    the name of another branch, and says the directory was
    initialized. *)
Theorem init_resets_HEAD (fuel : nat) (w : world) (s : fs) :
  is_dir s [lit ".git"] = true ->
  is_dir s [lit ".git"; lit "HEAD"] = false ->
  ([lit ".git"; lit "HEAD"] ∉ denied s) ->
  exists s',
    main compress zlib_read fuel w [lit "mygit"; lit "init"] s
    = Some (Done (lit "Initialized git directory" ++ [LF]), s')
    /\ files s' !! [lit ".git"; lit "HEAD"] = Some (lit "ref: refs/heads/master" ++ [LF]).
Proof.
  intros Hgit Hhead Hden. exists (init s). split.
  - unfold main. cbn [length Nat.ltb Nat.leb arg nth].
    rewrite decide_True by reflexivity. reflexivity.
  - unfold init.
    set (s1 := snd (MkdirAll [lit ".git"] s)).
    set (s2 := snd (MkdirAll [lit ".git"; lit "objects"] s1)).
    set (s3 := snd (MkdirAll [lit ".git"; lit "refs"] s2)).
    assert (is_dir s3 [lit ".git"] = true) as Hgit3.
    { unfold is_dir in *. apply bool_decide_eq_true. apply bool_decide_eq_true in Hgit.
      do 3 apply (proj1 (proj2 (proj2 (mkdir_chain_keeps _ _)))). exact Hgit. }
    assert (is_dir s3 [lit ".git"; lit "HEAD"] = false) as Hhead3.
    { unfold is_dir in *. apply bool_decide_eq_false. apply bool_decide_eq_false in Hhead.
      intros H. unfold s3, s2, s1, MkdirAll in H.
      repeat match type of H with
             | _ ∈ dirs (snd (mkdir_chain ?ps ?s0)) =>
                 apply (proj2 (proj2 (proj2 (mkdir_chain_keeps ps s0)))) in H as [H|H];
                 [|clear -H; unfold prefixes in H; cbn [length seq map take] in H;
                   rewrite ?take_0 in H;
                   repeat (apply elem_of_cons in H as [H|H]; [discriminate H|]);
                   apply elem_of_nil in H; contradiction]
             end.
      exact (Hhead H). }
    assert (denied s3 = denied s) as Hden3.
    { unfold s3, s2, s1, MkdirAll.
      rewrite !(proj1 (proj2 (mkdir_chain_keeps _ _))). reflexivity. }
    unfold WriteFile, parent, prefixes.
    cbn [removelast length seq map take forallb]. rewrite ?take_0, Hhead3, Hgit3.
    rewrite Hden3, bool_decide_eq_false_2 by exact Hden.
    cbn [orb negb andb snd files]. apply lookup_insert_eq.
Qed.

End Reinit.

(** The theorem of X24 on a repository on the branch [dev]. *)
Lemma init_resets_HEAD_witness :
  is_dir fs_on_branch [lit ".git"] = true
  /\ is_dir fs_on_branch [lit ".git"; lit "HEAD"] = false
  /\ ([lit ".git"; lit "HEAD"] ∉ denied fs_on_branch)
  /\ exists s',
       main stored stored_read 0 world_outside [lit "mygit"; lit "init"] fs_on_branch
       = Some (Done (lit "Initialized git directory" ++ [LF]), s')
       /\ files s' !! [lit ".git"; lit "HEAD"] = Some (lit "ref: refs/heads/master" ++ [LF]).
Proof.
  assert (is_dir fs_on_branch [lit ".git"] = true) as H1 by (vm_compute; reflexivity).
  assert (is_dir fs_on_branch [lit ".git"; lit "HEAD"] = false) as H2
    by (vm_compute; reflexivity).
  assert ([lit ".git"; lit "HEAD"] ∉ denied fs_on_branch) as H3
    by (unfold fs_on_branch; cbn [denied]; apply not_elem_of_empty).
  exact (conj H1 (conj H2 (conj H3
    (init_resets_HEAD stored stored_read 0 world_outside fs_on_branch H1 H2 H3)))).
Defined.
